(** * Merge / split of block-partitioned RLE label volumes (package labelvol)

    A shallow embedding of [MergeLabels], [SplitLabels], [diffBlock] and
    [writeLabelVol] from [datatype/googlevoxels/googlevoxels.go], together
    with the properties of the natural-language specification that concern
    them.

    Conventions.
    - Go integers are [Z]; [uint64] arithmetic is written with its wrap-around
      ([wrap64]).
    - Go strings and byte slices used as keys ([dvid.IZYXString], store keys)
      are [string]; Go compares strings byte-lexicographically, which is
      [String.ltb].
    - A Go call either returns or panics ([outcome]).  Go-level [error] values
      are ordinary results.
    - Everything that lives in other packages of the repository ([dvid],
      [labels], [datastore], [storage]) is either modelled from the
      specification (flagged as such) or taken as a field of the
      [Collaborators] interface.

    A second part (module [GoogleVoxels]) embeds the functions of the tile
    side of the same file that compute on plain data, with properties read
    off the code. *)

From Stdlib Require Import ZArith Lia Bool Ascii String Sorted.
From stdpp Require Import gmap list strings.

Local Open Scope Z_scope.

(** ** Results of Go calls *)

Inductive panic : Type :=
| NilDereference      (* invalid memory address or nil pointer dereference *)
| IndexOutOfRange.    (* index out of range *)

Inductive outcome (A : Type) : Type :=
| Returns (a : A)
| Panics (p : panic).
Arguments Returns {A} a.
Arguments Panics {A} p.

Inductive error : Type :=
| Errorf (fmt : string)                 (* fmt.Errorf without an error argument *)
| ErrorfWrap (fmt : string) (e : error) (* fmt.Errorf(".. %s", err.Error()) *)
| ExternalError (code : Z).             (* an error value made by a collaborator *)

(** ** uint64 arithmetic *)

Definition wrap64 (z : Z) : Z := z mod 2 ^ 64.

(** ** The RLE model (package dvid) *)

Module RLEModel.

(** [dvid.RLE]: a start point (x, y, z) and a length, all int32. *)
Record RLE : Type := mkRLE {
    startX : Z;
    startY : Z;
    startZ : Z;
    runLength : Z
  }.

Definition zeroRLE : RLE := mkRLE 0 0 0 0.

#[global] Instance RLE_eq_dec : EqDecision RLE.
Proof. solve_decision. Defined.

Definition lastX (r : RLE) : Z := startX r + runLength r - 1.

(** Modelled from the spec: [dvid.RLE.Excise] is not part of the sources at
    hand.  Section 4.1: given one original run and one cut run, returns the
    0-2 fragments of [orig] that remain after removing the portion
    overlapping [cut]; a sentinel (Go [nil], here [None]) when the runs do
    not overlap, distinguished from an intersection with no remaining
    fragment ([Some []]).  Fragments are given in ascending order. *)
Definition Excise (orig cut : RLE) : option (list RLE) :=
    if negb ((startY orig =? startY cut) && (startZ orig =? startZ cut)) then None
    else if (lastX cut <? startX orig) || (lastX orig <? startX cut) then None
    else
      Some ((if startX orig <? startX cut
             then [mkRLE (startX orig) (startY orig) (startZ orig)
                         (startX cut - startX orig)]
             else [])
            ++
            (if lastX cut <? lastX orig
             then [mkRLE (lastX cut + 1) (startY orig) (startZ orig)
                         (lastX orig - lastX cut)]
             else [])).

(** Modelled from the spec: [dvid.RLEs.NumVoxels] (section 4.1, "sum of run
    lengths", a uint64). *)
Definition NumVoxels (rles : list RLE) : Z :=
    wrap64 (foldr (fun r acc => runLength r + acc) 0 rles).

(** Modelled from the spec: the order used by [sort.Sort] on [dvid.RLEs]
    (section 4.5, "ascending by start coordinate"): Z-major, then Y,
    then X, as for block coordinates. *)
Definition rle_less (a b : RLE) : bool :=
    if startZ a <? startZ b then true
    else if startZ b <? startZ a then false
    else if startY a <? startY b then true
    else if startY b <? startY a then false
    else startX a <? startX b.

Fixpoint insertRLE (r : RLE) (rles : list RLE) : list RLE :=
    match rles with
    | [] => [r]
    | r' :: rest => if rle_less r' r then r' :: insertRLE r rest
                    else r :: rles
    end.

(** [sort.Sort(rles)].  Go's sort is not stable; the order it leaves between
    runs that start at the same point is not determined by the source.  On
    run lists whose start points are pairwise distinct every sort returns
    this list. *)
Fixpoint sortRLEs (rles : list RLE) : list RLE :=
    match rles with
    | [] => []
    | r :: rest => insertRLE r (sortRLEs rest)
    end.

(** The voxels of a run and of a run list, as a predicate on points. *)
Definition covers (r : RLE) (x y z : Z) : Prop :=
    y = startY r /\ z = startZ r /\ startX r <= x <= lastX r.

Definition coversAny (rles : list RLE) (x y z : Z) : Prop :=
    Exists (fun r => covers r x y z) rles.

Definition intersects (a b : RLE) : bool :=
    match Excise a b with Some _ => true | None => false end.

End RLEModel.
Export RLEModel.

(** ** container/list as used by [diffBlock]

    The list holds values in order; an element pointer [*list.Element] is
    [None] for Go's [nil] and [Some k] for the element at position [k]. *)

Module GoList.

Definition elem : Type := option nat.

(** [l.Front()] *)
Definition Front (l : list RLE) : elem :=
    match l with [] => None | _ :: _ => Some 0%nat end.

(** [l.InsertAfter(v, e)] for a non-nil [e] at position [k]. *)
Definition InsertAfter (v : RLE) (k : nat) (l : list RLE) : list RLE :=
    take (S k) l ++ v :: drop (S k) l.

(** [e.Prev()] for a non-nil [e] at position [k]. *)
Definition Prev (k : nat) : elem :=
    match k with O => None | S j => Some j end.

(** [e.Next()] for a non-nil [e] at position [k]. *)
Definition Next (k : nat) (l : list RLE) : elem :=
    if decide (S k < length l)%nat then Some (S k) else None.

(** [l.Remove(e)] for a non-nil [e] at position [k]. *)
Definition Remove (k : nat) (l : list RLE) : list RLE := delete k l.

End GoList.

(** ** diffBlock *)

Section DiffBlock.

(** The inner loop
    [for i := si; i < len(srles); i++ { frags := orig.Excise(srles[i]); if frags == nil { continue }; ...; break }]
    looks for the first split run at index [>= si] that intersects [orig]
    and yields its fragments; [srem] is [srles[si:]]. *)
Fixpoint firstExcise (orig : RLE) (srem : list RLE) : option (list RLE) :=
    match srem with
    | [] => None
    | s :: rest =>
        match Excise orig s with
        | Some frags => Some frags
        | None => firstExcise orig rest
        end
    end.

(** [for _, rle := range frags { l.InsertAfter(rle, e) }] *)
Definition insertFrags (frags : list RLE) (k : nat) (l : list RLE) : list RLE :=
    foldl (fun acc rle => GoList.InsertAfter rle k acc) l frags.

(** Result of the outer loop: the list that is left, the error
    "split is not contained within single label", or a panic. *)
Inductive loopResult : Type :=
  | LoopDone (l : list RLE)
  | LoopBadSplit
  | LoopPanic (p : panic).

(** The outer loop [for e != nil && si < len(srles)].  The split index [si]
    only ever grows by one per iteration, so the loop is written on
    [srem = srles[si:]]: [si < len(srles)] is [srem <> []], and [si++] is
    taking the tail. *)
Fixpoint diffLoop (srem : list RLE) (l : list RLE) (e : GoList.elem)
    : loopResult :=
    match srem with
    | [] => LoopDone l
    | _ :: srem' =>
        match e with
        | None => LoopDone l
        | Some k =>
            let orig := nth k l zeroRLE in
            match firstExcise orig srem with
            | None => LoopBadSplit          (* badsplit stayed true *)
            | Some frags =>
                let l1 := insertFrags frags k l in
                let left := GoList.Prev k in
                let l2 := GoList.Remove k l1 in
                (* e = left; ...; e = e.Next() *)
                match left with
                | None => LoopPanic NilDereference
                | Some j => diffLoop srem' l2 (GoList.Next j l2)
                end
            end
        end
    end.

(** [modified = make(dvid.RLEs, l.Len()); i := 0;
     for e = l.Front(); e != nil; e = e.Next() { modified[i] = e.Value }]:
    the index [i] is never changed. *)
Definition collect (l : list RLE) : list RLE :=
    foldl (fun modified v => <[0%nat := v]> modified)
          (replicate (length l) zeroRLE) l.

Definition errBadSplit : error :=
    Errorf "split is not contained within single label".

(** [diffBlock(split, orig) (modified, dup, err)] on the values of the two
    slices. *)
Definition diffBlock (split orig : list RLE)
    : outcome (list RLE * bool * option error) :=
    let srles := sortRLEs split in
    let orles := sortRLEs orig in
    let l := orles in
    match diffLoop srles l (GoList.Front l) with
    | LoopPanic p => Panics p
    | LoopBadSplit => Returns ([], false, Some errBadSplit)
    | LoopDone l' =>
        if decide (length l' = 0%nat) then Returns ([], true, None)
        else Returns (collect l', false, None)
    end.

End DiffBlock.

(** ** diffBlock on slices in memory

    The value-level [diffBlock] above cannot express that the caller's slices
    are left alone.  Here slices point into backing arrays of a heap, and
    [make], [copy] and [sort.Sort] act on that heap. *)

Module Mem.

Abbreviation heap := (gmap nat (list RLE)).

(** A slice: backing array, offset into it, length. *)
Record slice : Type := mkSlice { arr : nat; off : nat; len : nat }.

(** The runs a slice holds. *)
Definition read (h : heap) (s : slice) : list RLE :=
    take (len s) (drop (off s) (default [] (h !! arr s))).

(** A slice that lies within an allocated backing array. *)
Definition valid (h : heap) (s : slice) : Prop :=
    exists a, h !! arr s = Some a /\ (off s + len s <= length a)%nat.

(** [make(dvid.RLEs, n)]: a new backing array of [n] zero runs. *)
Definition make (h : heap) (n : nat) : slice * heap :=
    let a := fresh (dom h) in
    (mkSlice a 0 n, <[a := replicate n zeroRLE]> h).

(** Overwrite the first [length vs] elements of slice [s] with [vs]. *)
Definition storeSeg (h : heap) (s : slice) (vs : list RLE) : heap :=
    alter (fun a => take (off s) a ++ vs ++ drop (off s + length vs) a) (arr s) h.

(** [copy(dst, src)] *)
Definition copy (h : heap) (dst src : slice) : heap :=
    storeSeg h dst (take (len dst) (read h src)).

(** [sort.Sort(s)]: sorts the elements of [s] in place. *)
Definition sortSlice (h : heap) (s : slice) : heap :=
    storeSeg h s (sortRLEs (read h s)).

(** [modified[0] = v] *)
Definition setFirst (h : heap) (s : slice) (v : RLE) : heap :=
    alter (fun a => <[off s := v]> a) (arr s) h.

(** [diffBlock] with its slices in memory.  The linked list [l] is private
    to the call and is kept as a value. *)
Definition diffBlock (h : heap) (split orig : slice)
    : outcome (option slice * bool * option error) * heap :=
    let '(srles, h) := make h (len split) in
    let h := copy h srles split in
    let '(orles, h) := make h (len orig) in
    let h := copy h orles orig in
    let h := sortSlice h srles in
    let h := sortSlice h orles in
    let l := read h orles in
    match diffLoop (read h srles) l (GoList.Front l) with
    | LoopPanic p => (Panics p, h)
    | LoopBadSplit => (Returns (None, false, Some errBadSplit), h)
    | LoopDone l' =>
        if decide (length l' = 0%nat) then (Returns (None, true, None), h)
        else
          let '(modified, h) := make h (length l') in
          let h := foldl (fun h v => setFirst h modified v) h l' in
          (Returns (Some modified, false, None), h)
    end.

(** The value of a returned slice; Go's nil slice holds no runs. *)
Definition readResult (h : heap) (s : option slice) : list RLE :=
    match s with Some s => read h s | None => [] end.

End Mem.

(** ** Events (packages labels and datastore) *)

Abbreviation BlockRLEs := (gmap string (list RLE)).

(** [labels.MergeOp]: the target and the set of merged labels.  [Merged] is
    a Go map used as a set; the list gives its keys in the order in which
    [range] visits them. *)
Record MergeOp : Type := mkMergeOp { Target : Z; Merged : list Z }.

Inductive EventKind : Type :=
| MergeStartEvent | MergeBlockEvent | MergeEndEvent
| SplitStartEvent | SplitLabelEvent | SplitEndEvent
| ChangeSizeEvent.

#[global] Instance EventKind_eq_dec : EqDecision EventKind.
Proof. solve_decision. Defined.

Inductive Delta : Type :=
| DeltaMergeStart (m : MergeOp)
| DeltaMerge (m : MergeOp) (blocks : gset string)
| DeltaMergeEnd (m : MergeOp)
| DeltaDeleteSize (label oldSize : Z) (oldKnown : bool)
| DeltaReplaceSize (label oldSize newSize : Z)
| DeltaSplitStart (oldLabel newLabel : Z)
| DeltaSplit (oldLabel newLabel : Z) (split : BlockRLEs) (sortedBlocks : list string)
| DeltaSplitEnd (oldLabel newLabel : Z)
| DeltaNewSize (label size : Z)
| DeltaModSize (label sizeChange : Z).

(** One call of [datastore.NotifySubscribers(evt, msg)]. *)
Abbreviation Notification := (EventKind * Delta)%type.

(** ** The store (package storage) *)

Abbreviation kvstore := (gmap string (list Z)).

Record Chunk : Type := mkChunk { K : string; V : list Z }.

Inductive BatchOp : Type :=
| BatchPut (key : string) (value : list Z)
| BatchDelete (key : string).

Inductive storeHandle : Type :=
| StoreFails (err : error)   (* storage.SmallDataStore() returned an error *)
| StoreNoBatch               (* the store is not a storage.KeyValueBatcher *)
| StoreBatcher.

(** ** Collaborators

    What [MergeLabels] and [SplitLabels] call in other packages and in other
    files of package labelvol.  Each field stands for the function of that
    name; results that depend on the environment are given by the
    instance. *)
Record Collaborators : Type := {
  (* package storage *)
  SmallDataStore : storeHandle;
(** [store.DeleteRange(ctx, kStart, kEnd)]: the store afterwards, and the
    error *)
  DeleteRange : kvstore -> string -> string -> kvstore * option error;
(** [store.ProcessRange(ctx, kStart, kEnd, op, f)]: the chunks handed to
    [f], in key order, and the error the scan ends with if [f] never
    fails *)
  ProcessRange : kvstore -> string -> string -> list Chunk * option error;
(** [batch.Commit()] of the queued operations *)
  Commit : list BatchOp -> kvstore -> kvstore * option error;
  (* package datastore *)
(** [datastore.NotifySubscribers(evt, msg)], given the notifications made
    so far *)
  NotifySubscribers : list Notification -> EventKind -> Delta -> option error;
  (* package labelvol, other files *)
  NewIndex : Z -> string -> string;
  DecodeKey : string -> error + (Z * string);
  GetLabelRLEs : kvstore -> Z -> Z -> error + BlockRLEs;
(** [d.NewLabel(v)]; the allocator keeps its counter with the instance
    metadata, not among the block entries *)
  NewLabel : Z -> Z * option error;
  (* package dvid *)
  EncodingBinary : Z;
  UnmarshalBinaryReader : list Z -> Z -> error + list RLE;
  Partition : list RLE -> error + BlockRLEs;
  SortedKeys : BlockRLEs -> list string;
  MarshalBinary : list RLE -> error + list Z;
  UnmarshalBinary : list Z -> error + list RLE;
(** [rles.Add(rles2)]: the receiver afterwards *)
  RLEsAdd : list RLE -> list RLE -> list RLE;
(** [dvid.MinIndexZYX.Bytes()], [dvid.MaxIndexZYX.Bytes()] *)
  MinIndexBytes : string;
  MaxIndexBytes : string;
(** the same with the Z component replaced *)
  MinIndexBytesZ : Z -> string;
  MaxIndexBytesZ : Z -> string;
(** [IZYXString.Z()] *)
  BlockZ : string -> error + Z
}.

(** Modelled from the spec: [dvid.BlockRLEs.NumVoxels] (section 3, "its
    total voxel count is the sum of all run lengths"). *)
Definition BlockNumVoxels (b : BlockRLEs) : Z :=
  wrap64 (map_fold (fun _ rles acc => NumVoxels rles + acc) 0 b).

(** ** The world a call runs in *)

Record world : Type := mkWorld {
  events : list Notification;        (* notifications made, oldest first *)
  dirty : gmap (Z * Z) nat;          (* dirtyLabels: (version, label) -> count *)
  kv : kvstore;                      (* the block entries of the store *)
  logged : list string               (* messages of dvid.Errorf *)
}.

(** ** The dirty label tracker (package labels) *)

Module DirtyCache.

Abbreviation registry := (gmap (Z * Z) nat).

Definition count (d : registry) (iv label : Z) : nat :=
    default 0%nat (d !! (iv, label)).

(** Modelled from the spec: [labels.DirtyCache] is not part of the sources
    at hand.  Sections 3 and 4.2: a reference-counted guard per
    (instance-version, label); [incr] marks one label, [decr] unmarks it
    and drops the entry when nothing holds it. *)
Definition Incr (iv label : Z) (d : registry) : registry :=
    <[(iv, label) := S (count d iv label)]> d.

(** Modelled from the spec: [decr] of [labels.DirtyCache], see [Incr]. *)
Definition Decr (iv label : Z) (d : registry) : registry :=
    match count d iv label with
    | S (S n) => <[(iv, label) := S n]> d
    | _ => delete (iv, label) d
    end.

(** Modelled from the spec: [AddMerge] marks the target and all
    merged-from labels; [RemoveMerge] clears them. *)
Definition AddMerge (iv : Z) (m : MergeOp) (d : registry) : registry :=
    foldl (fun d label => Incr iv label d) (Incr iv (Target m) d) (Merged m).

(** Modelled from the spec: [RemoveMerge] of [labels.DirtyCache], see
    [AddMerge]. *)
Definition RemoveMerge (iv : Z) (m : MergeOp) (d : registry) : registry :=
    foldl (fun d label => Decr iv label d) (Decr iv (Target m) d) (Merged m).

End DirtyCache.

(** ** A small monad for Go function bodies

    A statement either goes on to the next one, returns from the function, or
    panics; all three carry the world along. *)

Inductive step (R A : Type) : Type :=
| Next (a : A)
| Return (r : R)
| Panic (p : panic).
Arguments Next {R A} a.
Arguments Return {R A} r.
Arguments Panic {R A} p.

Definition Go (R A : Type) : Type := world -> step R A * world.

Definition ret {R A} (a : A) : Go R A := fun w => (Next a, w).

Definition bind {R A B} (m : Go R A) (k : A -> Go R B) : Go R B :=
  fun w => match m w with
           | (Next a, w') => k a w'
           | (Return r, w') => (Return r, w')
           | (Panic p, w') => (Panic p, w')
           end.

Notation "'do' x <- m ; k" := (bind m (fun x => k))
  (at level 10, x pattern, m at level 100, k at level 200).
Notation "'do_' m ; k" := (bind m (fun _ => k))
  (at level 10, m at level 100, k at level 200).

(** [return r] *)
Definition return_ {R A} (r : R) : Go R A := fun w => (Return r, w).

(** [panic] raised by the runtime *)
Definition panic_ {R A} (p : panic) : Go R A := fun w => (Panic p, w).

(** [if err != nil { return r(err) }] *)
Definition check {R} (err : option error) (r : error -> R) : Go R unit :=
  match err with Some e => return_ (r e) | None => ret tt end.

(** [x, err := f(); if err != nil { return r(err) }] *)
Definition try {R A} (x : error + A) (r : error -> R) : Go R A :=
  match x with inl e => return_ (r e) | inr a => ret a end.

(** Calling a function from a body. *)
Definition call {R A} (f : world -> outcome A * world) : Go R A :=
  fun w => match f w with
           | (Returns a, w') => (Next a, w')
           | (Panics p, w') => (Panic p, w')
           end.

(** A whole function: falling off the end of the body with [r] is
    [return r]. *)
Definition func {R} (body : Go R R) : world -> outcome R * world :=
  fun w => match body w with
           | (Next r, w') | (Return r, w') => (Returns r, w')
           | (Panic p, w') => (Panics p, w')
           end.

(** [defer d()] followed by the rest of the body: [d] runs when the function
    returns or panics. *)
Definition defer {R A} (d : world -> world) (rest : Go R A) : Go R A :=
  fun w => let '(s, w') := rest w in (s, d w').

(** [for _, x := range xs { s = body(s, x) }] with early return. *)
Fixpoint forRange {R A S} (xs : list A) (s : S) (body : S -> A -> Go R S)
  : Go R S :=
  match xs with
  | [] => ret s
  | x :: xs' => do s' <- body s x; forRange xs' s' body
  end.

Definition getKV {R : Type} : Go R kvstore := fun w => (Next (kv w), w).

Definition setKV {R : Type} (s : kvstore) : Go R unit :=
  fun w => (Next tt, mkWorld (events w) (dirty w) s (logged w)).

Definition setDirty {R : Type} (f : gmap (Z * Z) nat -> gmap (Z * Z) nat) : Go R unit :=
  fun w => (Next tt, mkWorld (events w) (f (dirty w)) (kv w) (logged w)).

Definition unmark (f : gmap (Z * Z) nat -> gmap (Z * Z) nat) (w : world) : world :=
  mkWorld (events w) (f (dirty w)) (kv w) (logged w).

(** [dvid.Errorf(msg)] *)
Definition logError {R : Type} (msg : string) : Go R unit :=
  fun w => (Next tt, mkWorld (events w) (dirty w) (kv w) (logged w ++ [msg])).

(** ** Reading the split payload (packages io and encoding/binary) *)

Definition ioEOF : error := Errorf "EOF".
Definition ioErrUnexpectedEOF : error := Errorf "unexpected EOF".

(** [io.ReadFull(r, buf)] with [len(buf) = n]: the bytes read and the rest of
    the stream, or the error of a short stream. *)
Definition readFull (r : list Z) (n : nat) : error + (list Z * list Z) :=
  if decide (n <= length r)%nat then inr (take n r, drop n r)
  else match r with [] => inl ioEOF | _ => inl ioErrUnexpectedEOF end.

(** Little-endian value of a byte string. *)
Fixpoint littleEndian (bs : list Z) : Z :=
  match bs with
  | [] => 0
  | b :: rest => b + 256 * littleEndian rest
  end.

(** [binary.Read(r, binary.LittleEndian, &numSpans)] for a uint32. *)
Definition readUint32 (r : list Z) : error + (Z * list Z) :=
  match readFull r 4 with
  | inl e => inl e
  | inr (bs, rest) => inr (littleEndian bs, rest)
  end.

(** [int64(u)] of a uint64 *)
Definition toInt64 (u : Z) : Z := if u <? 2 ^ 63 then u else u - 2 ^ 64.

(** ** MergeLabels, SplitLabels, writeLabelVol *)

Section Labelvol.

Context (C : Collaborators).

(** [datastore.NotifySubscribers(evt, msg)] *)
Definition notify {R : Type} (evt : EventKind) (msg : Delta) : Go R (option error) :=
    fun w => (Next (NotifySubscribers C (events w) evt msg),
              mkWorld (events w ++ [(evt, msg)]) (dirty w) (kv w) (logged w)).

(** [store.DeleteRange(ctx, kStart, kEnd)] *)
Definition deleteRange {R : Type} (kStart kEnd : string) : Go R (option error) :=
    fun w => let '(s, err) := DeleteRange C (kv w) kStart kEnd in
             (Next err, mkWorld (events w) (dirty w) s (logged w)).

(** [batch.Commit()] *)
Definition commit {R : Type} (batch : list BatchOp) : Go R (option error) :=
    fun w => let '(s, err) := Commit C batch (kv w) in
             (Next err, mkWorld (events w) (dirty w) s (logged w)).

(** [store, err := storage.SmallDataStore(); ...; batcher, ok := store.(storage.KeyValueBatcher)] *)
Definition openStore {R : Type} (r : error -> R) : Go R unit :=
    match SmallDataStore C with
    | StoreFails err =>
        return_ (r (ErrorfWrap "Data type labelvol had error initializing store: %s\n" err))
    | StoreNoBatch =>
        return_ (r (Errorf "Data type labelvol requires batch-enabled store, which %q is not\n"))
    | StoreBatcher => ret tt
    end.

(** The loop [for blockStr, fromRLEs := range fromLabelRLEs] of
    [MergeLabels]. *)
Definition mergeBlocks (toLabelRLEs : BlockRLEs) (blocksChanged : gset string)
    (fromLabelRLEs : BlockRLEs) : BlockRLEs * gset string :=
    foldl (fun '(toLabelRLEs, blocksChanged) '(blockStr, fromRLEs) =>
             let blocksChanged := {[blockStr]} ∪ blocksChanged in
             let toRLEs := match toLabelRLEs !! blockStr with
                           | Some toRLEs => RLEsAdd C toRLEs fromRLEs
                           | None => fromRLEs
                           end in
             (<[blockStr := toRLEs]> toLabelRLEs, blocksChanged))
          (toLabelRLEs, blocksChanged) (map_to_list fromLabelRLEs).

(** One iteration of [for fromLabel := range m.Merged]. *)
Definition mergeOne (v toLabel : Z)
    (st : Z * BlockRLEs * gset string) (fromLabel : Z)
    : Go (option error) (Z * BlockRLEs * gset string) :=
    let '(addedVoxels, toLabelRLEs, blocksChanged) := st in
    do store <- getKV;
    do fromLabelRLEs <-
      try (GetLabelRLEs C store v fromLabel)
          (fun e => Some (ErrorfWrap "Can't get block-level RLEs for label %d: %s" e));
    let fromLabelSize := BlockNumVoxels fromLabelRLEs in
    let addedVoxels := wrap64 (addedVoxels + fromLabelSize) in
    do err <- notify ChangeSizeEvent (DeltaDeleteSize fromLabel fromLabelSize true);
    do_ check err Some;
    let '(toLabelRLEs, blocksChanged) :=
      mergeBlocks toLabelRLEs blocksChanged fromLabelRLEs in
    let minIndex := NewIndex C fromLabel (MinIndexBytes C) in
    let maxIndex := NewIndex C fromLabel (MaxIndexBytes C) in
    do err <- deleteRange minIndex maxIndex;
    do_ check err (fun e => Some (ErrorfWrap "Can't delete label %d RLEs: %s" e));
    ret (addedVoxels, toLabelRLEs, blocksChanged).

(** The body of the loops [for blockStr := range blocksChanged] of
      [MergeLabels] and [for _, s := range blks] of [writeLabelVol]: serialize
      the runs of the block (the zero value when the map has none) and queue
      [batch.Put(NewIndex(label, block), serialization)]. *)
Definition putBlock (label : Z) (brles : BlockRLEs) (batch : list BatchOp)
    (block : string) : Go (option error) (list BatchOp) :=
    do serialization <-
      try (MarshalBinary C (default [] (brles !! block)))
          (fun e => Some (ErrorfWrap "Error serializing RLEs for label %d: %s\n" e));
    ret (batch ++ [BatchPut (NewIndex C label block) serialization]).

Definition MergeLabels (v : Z) (m : MergeOp)
    : world -> outcome (option error) * world :=
    func (
      do_ openStore Some;
      (* Signal that we are starting a merge. *)
      do err <- notify MergeStartEvent (DeltaMergeStart m);
      do_ check err Some;
      (* Mark these labels as dirty until done. *)
      do_ setDirty (DirtyCache.AddMerge v m);
      defer (unmark (DirtyCache.RemoveMerge v m)) (
        let toLabel := Target m in
        do store <- getKV;
        do toLabelRLEs <-
          try (GetLabelRLEs C store v toLabel)
              (fun e => Some (ErrorfWrap "Can't get block-level RLEs for label %d: %s" e));
        let toLabelSize := BlockNumVoxels toLabelRLEs in
        (* Iterate through all labels to be merged. *)
        do st <- forRange (Merged m) (0, toLabelRLEs, ∅) (mergeOne v toLabel);
        let '(addedVoxels, toLabelRLEs, blocksChanged) := st in
        (* Publish block-level merge *)
        do err <- notify MergeBlockEvent (DeltaMerge m blocksChanged);
        do_ check err Some;
        (* Update datastore with all toLabel RLEs that were changed *)
        do batch <- forRange (elements blocksChanged) [] (putBlock toLabel toLabelRLEs);
        do err <- commit batch;
        do_ match err with
            | Some _ => logError "Error on updating RLEs for label %d: %s\n"
            | None => ret tt
            end;
        do err <- notify ChangeSizeEvent
                    (DeltaReplaceSize toLabel toLabelSize (wrap64 (toLabelSize + addedVoxels)));
        do_ check err Some;
        do err <- notify MergeEndEvent (DeltaMergeEnd m);
        do_ check err Some;
        return_ None)).

Definition writeLabelVol (v label : Z) (blks : list string) (brles : BlockRLEs)
    : world -> outcome (option error) * world :=
    func (
      do_ openStore Some;
      do batch <- forRange blks [] (putBlock label brles);
      do err <- commit batch;
      do_ check err (fun e => Some (ErrorfWrap "Error on updating RLEs for label %d: %s\n" e));
      return_ None).

(** The chunk processor [f] of [SplitLabels].  It closes over [pos] and
    [batch], which it updates; its result is the error it returns (or a
    panic) and the new values of the two variables. *)
Definition splitChunk (fromLabel : Z) (splitmap : BlockRLEs)
    (splitblks : list string) (pos : nat) (batch : list BatchOp) (chunk : Chunk)
    : outcome (option error * nat * list BatchOp) :=
    match DecodeKey C (K chunk) with
    | inl e =>
        Returns (Some (ErrorfWrap "Error decoding sparse volume key (%v): %s\n" e),
                 pos, batch)
    | inr (_, origblk) =>
        match splitblks !! pos with
        | None => Panics IndexOutOfRange        (* splitblk := splitblks[pos] *)
        | Some splitblk =>
            if String.ltb origblk splitblk || bool_decide (length splitblks <= pos)%nat
            then Returns (None, pos, batch)     (* Seek forward *)
            else if String.eqb origblk splitblk then
              match UnmarshalBinary C (V chunk) with
              | inl _ =>
                  Returns (Some (Errorf "Unable to unmarshal RLE for label in block %v"),
                           pos, batch)
              | inr rles =>
                  match diffBlock (default [] (splitmap !! splitblk)) rles with
                  | Panics p => Panics p
                  | Returns (_, _, Some err) => Returns (Some err, pos, batch)
                  | Returns (modified, dup, None) =>
                      let ibytes := NewIndex C fromLabel origblk in
                      if dup then Returns (None, pos, batch ++ [BatchDelete ibytes])
                      else
                        match MarshalBinary C modified with
                        | inl e =>
                            Returns (Some (ErrorfWrap
                                       "can't serialize modified RLEs for split of %d: %s\n" e),
                                     pos, batch)
                        | inr rleBytes =>
                            Returns (None, pos, batch ++ [BatchPut ibytes rleBytes])
                        end
                  end
              end
            else Returns (None, S pos, batch)   (* pos++ *)
        end
    end.

(** [store.ProcessRange(ctx, begIndex, endIndex, &storage.ChunkOp{}, f)] on
    the chunks the store visits: [f] is run on each in turn; the scan stops
    at the first error [f] returns and hands it back. *)
Fixpoint scanChunks (fromLabel : Z) (splitmap : BlockRLEs)
    (splitblks : list string) (chunks : list Chunk) (pos : nat) (batch : list BatchOp)
    : outcome (option error * nat * list BatchOp) :=
    match chunks with
    | [] => Returns (None, pos, batch)
    | chunk :: rest =>
        match splitChunk fromLabel splitmap splitblks pos batch chunk with
        | Panics p => Panics p
        | Returns (Some err, pos', batch') => Returns (Some err, pos', batch')
        | Returns (None, pos', batch') =>
            scanChunks fromLabel splitmap splitblks rest pos' batch'
        end
    end.

Definition processRange {R : Type} (fromLabel : Z) (splitmap : BlockRLEs)
    (splitblks : list string) (begIndex endIndex : string)
    : Go R (option error * list BatchOp) :=
    fun w =>
      let '(chunks, storeErr) := ProcessRange C (kv w) begIndex endIndex in
      match scanChunks fromLabel splitmap splitblks chunks 0 [] with
      | Panics p => (Panic p, w)
      | Returns (Some err, _, batch) => (Next (Some err, batch), w)
      | Returns (None, _, batch) => (Next (storeErr, batch), w)
      end.

(** [s[i]] on a slice of strings *)
Definition index {R : Type} (s : list string) (i : nat) : Go R string :=
    match s !! i with Some x => ret x | None => panic_ IndexOutOfRange end.

Definition SplitLabels (v fromLabel : Z) (r : list Z)
    : world -> outcome (Z * option error) * world :=
    func (
      do_ openStore (fun e => (0, Some e));
      (* Mark these labels as dirty until done. *)
      do_ setDirty (DirtyCache.Incr v fromLabel);
      defer (unmark (DirtyCache.Decr v fromLabel)) (
        (* Create a new label id for this version that will persist to store *)
        let '(toLabel, err) := NewLabel C v in
        do_ check err (fun e => (toLabel, Some e));
        (* Signal that we are starting a split. *)
        do err <- notify SplitStartEvent (DeltaSplitStart fromLabel toLabel);
        do_ check err (fun e => (0, Some e));
        (* Read the sparse volume from reader. *)
        do hr <- try (readFull r 12) (fun e => (toLabel, Some e));
        let '(header, r) := hr in
        do_ (if decide (nth 0 header 0 = EncodingBinary C) then ret tt
             else return_ (toLabel,
                    Some (Errorf "sparse vol for split has unknown encoding format: %v")));
        do nr <- try (readUint32 r) (fun e => (toLabel, Some e));
        let '(numSpans, r) := nr in
        do split <- try (UnmarshalBinaryReader C r numSpans) (fun e => (toLabel, Some e));
        let toLabelSize := NumVoxels split in
        (* Partition the split spans into blocks. *)
        do splitmap <- try (Partition C split) (fun e => (toLabel, Some e));
        (* Get a sorted list of blocks that cover split. *)
        let splitblks := SortedKeys C splitmap in
        (* Publish split event *)
        do err <- notify SplitLabelEvent (DeltaSplit fromLabel toLabel splitmap splitblks);
        do_ check err (fun e => (0, Some e));
        (* Write the split sparse vol. *)
        do err <- call (writeLabelVol v toLabel splitblks splitmap);
        do_ check err (fun e => (toLabel, Some e));
        (* Restrict original block scan to split Z range. *)
        do first <- index splitblks 0;
        do minZ <- try (BlockZ C first) (fun e => (toLabel, Some e));
        do last <- index splitblks (length splitblks - 1);
        do maxZ <- try (BlockZ C last) (fun e => (toLabel, Some e));
        let begIndex := NewIndex C fromLabel (MinIndexBytesZ C minZ) in
        let endIndex := NewIndex C fromLabel (MaxIndexBytesZ C maxZ) in
        do scanned <- processRange fromLabel splitmap splitblks begIndex endIndex;
        let '(err, batch) := scanned in
        do_ check err (fun e => (toLabel, Some e));
        do err <- commit batch;
        do_ match err with
            | Some _ => logError "Batch PUT during split of %q label %d: %s\n"
            | None => ret tt
            end;
        (* Publish change in label sizes. *)
        do err <- notify ChangeSizeEvent (DeltaNewSize toLabel toLabelSize);
        do_ check err (fun e => (0, Some e));
        do err <- notify ChangeSizeEvent
                    (DeltaModSize fromLabel (toInt64 (wrap64 (- toLabelSize))));
        do_ check err (fun e => (0, Some e));
        (* Publish split end *)
        do err <- notify SplitEndEvent (DeltaSplitEnd fromLabel toLabel);
        do_ check err (fun e => (0, Some e));
        return_ (toLabel, None))).

End Labelvol.

(** ** The calls up to their final commit *)

Section ToCommit.

Context (C : Collaborators).



End ToCommit.

(** ** An in-memory instance of the collaborators

    A store held in a finite map, with keys made of one byte for the label
    followed by the three bytes (z, y, x) of the block coordinate, blocks of
    32 x 32 x 32 voxels, subscribers that accept every notification, and a
    commit that fails once the store holds [capacity] entries.  It is the
    instance at which the general statements below are exercised. *)

Module MemStore.

Definition byte (n : Z) : ascii := ascii_of_nat (Z.to_nat n).
Definition code (a : ascii) : Z := Z.of_nat (nat_of_ascii a).

(** The block coordinate string of block (x, y, z). *)
Definition blk (z y x : Z) : string :=
    String (byte z) (String (byte y) (String (byte x) EmptyString)).

Definition newIndex (label : Z) (block : string) : string :=
    String (byte label) block.

Definition decodeKey (k : string) : error + (Z * string) :=
    match k with
    | String a block => inr (code a, block)
    | EmptyString => inl (Errorf "key too short")
    end.

Definition inRange (kStart kEnd k : string) : bool :=
    String.leb kStart k && String.leb k kEnd.

Definition deleteRange (s : kvstore) (kStart kEnd : string) : kvstore * option error :=
    (filter (fun kv => inRange kStart kEnd kv.1 = false) s, None).

Fixpoint insertChunk (c : Chunk) (cs : list Chunk) : list Chunk :=
    match cs with
    | [] => [c]
    | c' :: rest => if String.ltb (K c') (K c) then c' :: insertChunk c rest
                    else c :: cs
    end.

Definition processRange (s : kvstore) (kStart kEnd : string)
    : list Chunk * option error :=
    (foldr insertChunk []
       (map (fun kv => mkChunk kv.1 kv.2)
            (filter (fun kv => inRange kStart kEnd kv.1 = true) (map_to_list s))),
     None).

Definition applyOp (s : kvstore) (op : BatchOp) : kvstore :=
    match op with
    | BatchPut k v => <[k := v]> s
    | BatchDelete k => delete k s
    end.

Definition commit (capacity : nat) (batch : list BatchOp) (s : kvstore)
    : kvstore * option error :=
    if decide (capacity <= size s)%nat then (s, Some (ExternalError 28))
    else (foldl applyOp s batch, None).

Definition marshal (rles : list RLE) : error + list Z :=
    inr (flat_map (fun r => [startX r; startY r; startZ r; runLength r]) rles).

Fixpoint unmarshalRuns (n : nat) (bs : list Z) : error + list RLE :=
    match n with
    | O => match bs with [] => inr [] | _ => inl (Errorf "trailing bytes") end
    | S n' =>
        match bs with
        | x :: y :: z :: l :: rest =>
            match unmarshalRuns n' rest with
            | inr rles => inr (mkRLE x y z l :: rles)
            | inl e => inl e
            end
        | [] => inr []
        | _ => inl (Errorf "truncated run")
        end
    end.

Definition unmarshal (bs : list Z) : error + list RLE :=
    unmarshalRuns (length bs) bs.

(** [numSpans] records of four little-endian 32-bit fields. *)
Fixpoint unmarshalReader (n : nat) (r : list Z) : error + list RLE :=
    match n with
    | O => inr []
    | S n' =>
        if decide (16 <= length r)%nat then
          match unmarshalReader n' (drop 16 r) with
          | inr rles =>
              inr (mkRLE (littleEndian (take 4 r))
                         (littleEndian (take 4 (drop 4 r)))
                         (littleEndian (take 4 (drop 8 r)))
                         (littleEndian (take 4 (drop 12 r))) :: rles)
          | inl e => inl e
          end
        else inl ioErrUnexpectedEOF
    end.

(** The pieces of the run (x, y, z, n) cut at the block boundaries. *)
Fixpoint cutRun (fuel : nat) (x y z n : Z) : list (string * RLE) :=
    match fuel with
    | O => []
    | S fuel' =>
        if n <=? 0 then []
        else
          let room := 32 - x mod 32 in
          let b := blk (z / 32) (y / 32) (x / 32) in
          if n <=? room then [(b, mkRLE x y z n)]
          else (b, mkRLE x y z room) :: cutRun fuel' (x + room) y z (n - room)
    end.

Definition partition (rles : list RLE) : error + BlockRLEs :=
    inr (foldl (fun (m : BlockRLEs) '(b, r) => <[b := default [] (m !! b) ++ [r]]> m)
               ∅
               (flat_map (fun r => cutRun (Z.to_nat (runLength r))
                                          (startX r) (startY r) (startZ r) (runLength r))
                         rles)).

Fixpoint insertKey (k : string) (ks : list string) : list string :=
    match ks with
    | [] => [k]
    | k' :: rest => if String.ltb k' k then k' :: insertKey k rest else k :: ks
    end.

Definition sortedKeys (m : BlockRLEs) : list string :=
    foldr insertKey [] (map fst (map_to_list m)).

Definition getLabelRLEs (s : kvstore) (v label : Z) : error + BlockRLEs :=
    foldr (fun (kv : string * list Z) (acc : error + BlockRLEs) =>
             match acc, decodeKey kv.1, unmarshal kv.2 with
             | inl e, _, _ => inl e
             | inr m, inr (l, b), inr rles =>
                 if decide (l = label) then inr (<[b := rles]> m) else inr m
             | inr m, inr (l, _), inl e => if decide (l = label) then inl e else inr m
             | inr m, inl _, _ => inr m
             end)
          (inr ∅) (map_to_list s).

Definition blockZ (b : string) : error + Z :=
    match b with
    | String a _ => inr (code a)
    | EmptyString => inl (Errorf "block coordinate too short")
    end.

Definition collab (capacity : nat) : Collaborators := {|
    SmallDataStore := StoreBatcher;
    DeleteRange := deleteRange;
    ProcessRange := processRange;
    Commit := commit capacity;
    NotifySubscribers := fun _ _ _ => None;
    NewIndex := newIndex;
    DecodeKey := decodeKey;
    GetLabelRLEs := getLabelRLEs;
    NewLabel := fun _ => (9, None);
    EncodingBinary := 0;
    UnmarshalBinaryReader := fun r n => unmarshalReader (Z.to_nat n) r;
    Partition := partition;
    SortedKeys := sortedKeys;
    MarshalBinary := marshal;
    UnmarshalBinary := unmarshal;
    RLEsAdd := fun a b => sortRLEs (a ++ b);
    MinIndexBytes := blk 0 0 0;
    MaxIndexBytes := blk 255 255 255;
    MinIndexBytesZ := fun z => blk z 0 0;
    MaxIndexBytesZ := fun z => blk z 255 255;
    BlockZ := blockZ
  |}.

(** A store with room to spare. *)
Definition mem : Collaborators := collab 1000.


(** A world whose store holds the given runs for (label, block). *)
Definition worldWith (entries : list (Z * string * list RLE)) : world :=
    mkWorld [] ∅
      (foldl (fun (s : kvstore) '(label, b, rles) =>
                match marshal rles with
                | inr bs => <[newIndex label b := bs]> s
                | inl _ => s
                end) ∅ entries)
      [].

(** The 4 bytes of a 32-bit value, little-endian. *)
Definition le32 (n : Z) : list Z :=
    [n mod 256; (n / 256) mod 256; (n / 65536) mod 256; (n / 16777216) mod 256].

(** A split payload: 12 header bytes starting with [tag], the run count,
    the runs. *)
Definition payload (tag : Z) (rles : list RLE) : list Z :=
    (tag :: replicate 11 0) ++ le32 (Z.of_nat (length rles)) ++
    flat_map (fun r => le32 (startX r) ++ le32 (startY r) ++
                       le32 (startZ r) ++ le32 (runLength r)) rles.

End MemStore.

(** ** What a merge reads, and the ways a call ends

    The definitions of this part are not taken from the source: they name
    the quantities the properties below speak about. *)

Definition sumZ (zs : list Z) : Z := foldr Z.add 0 zs.

Definition kinds (t : list Notification) : list EventKind := map fst t.

(** The order of the notifications of a complete merge of [n] labels and of
    a complete split. *)
Definition mergeOrder (n : nat) : list EventKind :=
  MergeStartEvent :: replicate n ChangeSizeEvent ++
  [MergeBlockEvent; ChangeSizeEvent; MergeEndEvent].

Definition splitOrder : list EventKind :=
  [SplitStartEvent; SplitLabelEvent; ChangeSizeEvent; ChangeSizeEvent; SplitEndEvent].

(** The registries [d] and [d'] hold every label equally often. *)
Definition sameMarks (d d' : gmap (Z * Z) nat) : Prop :=
  forall iv label, DirtyCache.count d iv label = DirtyCache.count d' iv label.

(** How often [label'] of version [iv'] is among the labels [ls] of version
    [iv]. *)
Definition occurrences (iv : Z) (ls : list Z) (iv' label' : Z) : nat :=
  length (filter (fun label => (iv, label) = (iv', label')) ls).

(** What the failed commit of the final batch leaves in the log of
    [MergeLabels] and of [SplitLabels]. *)
Definition mergeCommitLog : string := "Error on updating RLEs for label %d: %s\n".
Definition splitCommitLog : string := "Batch PUT during split of %q label %d: %s\n".

Section Runs.

Context (C : Collaborators).

(** The store once the key range of [label] has been deleted. *)
Definition deleteLabel (s : kvstore) (label : Z) : kvstore :=
  (DeleteRange C s (NewIndex C label (MinIndexBytes C))
                   (NewIndex C label (MaxIndexBytes C))).1.

(** The voxel count of [label] as [GetLabelRLEs] reads it from [s]. *)
Definition voxelsRead (s : kvstore) (v label : Z) : Z :=
  match GetLabelRLEs C s v label with
  | inr rles => BlockNumVoxels rles
  | inl _ => 0
  end.

(** The voxel counts of the labels [ls], each read when its turn comes:
    after the key ranges of the labels before it have been deleted. *)
Fixpoint mergedSizes (v : Z) (ls : list Z) (s : kvstore) : list Z :=
  match ls with
  | [] => []
  | label :: rest => voxelsRead s v label :: mergedSizes v rest (deleteLabel s label)
  end.

Definition deleteEvents (ls sizes : list Z) : list Notification :=
  zip_with (fun label size => (ChangeSizeEvent, DeltaDeleteSize label size true))
           ls sizes.

(** The notifications of a merge up to and including the MergeBlock one. *)
Definition mergeHead (v : Z) (m : MergeOp) (w : world) (changed : gset string)
  : list Notification :=
  [(MergeStartEvent, DeltaMergeStart m)] ++
  deleteEvents (Merged m) (mergedSizes v (Merged m) (kv w)) ++
  [(MergeBlockEvent, DeltaMerge m changed)].

(** The size-replace notification: the target, its voxel count [old] and
    [old] plus the counts of the merged labels, in uint64. *)
Definition replaceSize (v : Z) (m : MergeOp) (w : world) (old : Z) : Notification :=
  (ChangeSizeEvent,
   DeltaReplaceSize (Target m) old
     (wrap64 (old + sumZ (mergedSizes v (Merged m) (kv w))))).

(** What a commit leaves in the log: nothing when it succeeds, [msg] when
    it fails. *)
Definition commitLog (msg : string) (lg : list string) : Prop :=
  (lg = [] /\ exists batch s, (Commit C batch s).2 = None) \/
  (lg = [msg] /\ exists batch s e, (Commit C batch s).2 = Some e).

(** The ways a call of [MergeLabels] in world [w] ends: with an error
    before the final batch is committed; or, once [Commit] has been called
    (its failure leaving [mergeCommitLog] in the log), with the result of the
    size-replace notification if that is an error, else with the result of
    the MergeEnd notification. *)
Inductive MergeRun (v : Z) (m : MergeOp) (w : world)
  : outcome (option error) -> world -> Prop :=
| MergeFailsEarly e t d s :
    kinds t `prefix_of` mergeOrder (length (Merged m)) ->
    sameMarks d (dirty w) ->
    MergeRun v m w (Returns (Some e)) (mkWorld (events w ++ t) d s (logged w))
| MergeReplaceRejected toRLEs changed e lg d s :
    GetLabelRLEs C (kv w) v (Target m) = inr toRLEs ->
    commitLog mergeCommitLog lg ->
    sameMarks d (dirty w) ->
    NotifySubscribers C (events w ++ mergeHead v m w changed) ChangeSizeEvent
      (replaceSize v m w (BlockNumVoxels toRLEs)).2 = Some e ->
    MergeRun v m w (Returns (Some e))
      (mkWorld (events w ++ mergeHead v m w changed ++
                  [replaceSize v m w (BlockNumVoxels toRLEs)])
               d s (logged w ++ lg))
| MergeReachesEnd toRLEs changed lg d s :
    GetLabelRLEs C (kv w) v (Target m) = inr toRLEs ->
    commitLog mergeCommitLog lg ->
    sameMarks d (dirty w) ->
    MergeRun v m w
      (Returns (NotifySubscribers C
                  (events w ++ mergeHead v m w changed ++
                     [replaceSize v m w (BlockNumVoxels toRLEs)])
                  MergeEndEvent (DeltaMergeEnd m)))
      (mkWorld (events w ++ mergeHead v m w changed ++
                  [replaceSize v m w (BlockNumVoxels toRLEs);
                   (MergeEndEvent, DeltaMergeEnd m)])
               d s (logged w ++ lg)).

(** A call that did not succeed: it panicked or returned an error. *)
Definition failed (o : outcome (Z * option error)) : Prop :=
  match o with
  | Panics _ => True
  | Returns (_, Some _) => True
  | Returns (_, None) => False
  end.

(** The notifications of a split up to and including the SplitLabel one. *)
Definition splitHead (fromLabel toLabel : Z) (splitmap : BlockRLEs) : list Notification :=
  [(SplitStartEvent, DeltaSplitStart fromLabel toLabel);
   (SplitLabelEvent, DeltaSplit fromLabel toLabel splitmap (SortedKeys C splitmap))].

Definition newSize (toLabel size : Z) : Notification :=
  (ChangeSizeEvent, DeltaNewSize toLabel size).

Definition modSize (fromLabel size : Z) : Notification :=
  (ChangeSizeEvent, DeltaModSize fromLabel (toInt64 (wrap64 (- size)))).

(** What [SplitLabels] returns after a notification with result [err]
    made once the new label is known. *)
Definition afterNotify (toLabel : Z) (err : option error) : Z * option error :=
  match err with Some e => (0, Some e) | None => (toLabel, None) end.

(** The ways a call of [SplitLabels] in world [w] ends: by a panic or an
    error before the final batch is committed; or, once [Commit] has been
    called (its failure leaving [splitCommitLog] in the log), with the result
    of the first of the notifications size-new, size-modify, SplitEnd that
    fails, or of SplitEnd. *)
Inductive SplitRun (v fromLabel : Z) (w : world)
  : outcome (Z * option error) -> world -> Prop :=
| SplitFailsEarly o t d s :
    failed o ->
    kinds t `prefix_of` splitOrder ->
    sameMarks d (dirty w) ->
    SplitRun v fromLabel w o (mkWorld (events w ++ t) d s (logged w))
| SplitNewSizeRejected toLabel splitmap size e lg d s :
    commitLog splitCommitLog lg ->
    sameMarks d (dirty w) ->
    NotifySubscribers C (events w ++ splitHead fromLabel toLabel splitmap)
      ChangeSizeEvent (newSize toLabel size).2 = Some e ->
    SplitRun v fromLabel w (Returns (0, Some e))
      (mkWorld (events w ++ splitHead fromLabel toLabel splitmap ++ [newSize toLabel size])
               d s (logged w ++ lg))
| SplitModSizeRejected toLabel splitmap size e lg d s :
    commitLog splitCommitLog lg ->
    sameMarks d (dirty w) ->
    NotifySubscribers C
      (events w ++ splitHead fromLabel toLabel splitmap ++ [newSize toLabel size])
      ChangeSizeEvent (modSize fromLabel size).2 = Some e ->
    SplitRun v fromLabel w (Returns (0, Some e))
      (mkWorld (events w ++ splitHead fromLabel toLabel splitmap ++
                  [newSize toLabel size; modSize fromLabel size])
               d s (logged w ++ lg))
| SplitReachesEnd toLabel splitmap size lg d s :
    commitLog splitCommitLog lg ->
    sameMarks d (dirty w) ->
    SplitRun v fromLabel w
      (Returns (afterNotify toLabel
         (NotifySubscribers C
            (events w ++ splitHead fromLabel toLabel splitmap ++
               [newSize toLabel size; modSize fromLabel size])
            SplitEndEvent (DeltaSplitEnd fromLabel toLabel))))
      (mkWorld (events w ++ splitHead fromLabel toLabel splitmap ++
                  [newSize toLabel size; modSize fromLabel size;
                   (SplitEndEvent, DeltaSplitEnd fromLabel toLabel)])
               d s (logged w ++ lg)).

End Runs.

(** ** Worlds and operations the statements are exercised on *)

Module Scenario.
Import MemStore.

(** Label 1 holds voxels 0..4 of block (0,0,0); label 2 holds voxels 5..7
    of that block and 32..34 of block (0,0,1). *)
Definition mergeWorld : world :=
  worldWith [(1, blk 0 0 0, [mkRLE 0 0 0 5]);
             (2, blk 0 0 0, [mkRLE 5 0 0 3]);
             (2, blk 0 0 1, [mkRLE 32 0 0 3])].

Definition mergeOp : MergeOp := mkMergeOp 1 [2].

(** Label 1 holds voxels 0..9 of block (0,0,0). *)
Definition splitWorld : world := worldWith [(1, blk 0 0 0, [mkRLE 0 0 0 10])].

(** Label 1 holds runs in blocks (0,0,1) and (0,0,2) only. *)
Definition farWorld : world :=
  worldWith [(1, blk 0 0 1, [mkRLE 32 0 0 4]); (1, blk 0 0 2, [mkRLE 64 0 0 4])].

(** A payload with the binary tag and the run 2..4, one with no run, and
    one with a wrong tag. *)
Definition splitPayload : list Z := payload 0 [mkRLE 2 0 0 3].
Definition emptyPayload : list Z := payload 0 [].
Definition badHeader : list Z := 1 :: replicate 11 0.

(** A heap with one unsorted backing array, the split a slice of its
    second element and the original the whole array. *)
Definition heap1 : Mem.heap := {[ 0%nat := [mkRLE 10 0 0 5; mkRLE 0 0 0 5] ]}.
Definition splitSlice : Mem.slice := Mem.mkSlice 0 1 1.
Definition origSlice : Mem.slice := Mem.mkSlice 0 0 2.

End Scenario.

(** ** Further definitions for the properties of the code *)

(** The key a queued operation acts on. *)
Definition opKey (op : BatchOp) : string :=
  match op with BatchPut k _ => k | BatchDelete k => k end.

(** One round of the loop of [mergeBlocks], on its pair of variables. *)
Definition addBlock (C : Collaborators) (acc : BlockRLEs * gset string)
  (kv : string * list RLE) : BlockRLEs * gset string :=
  (<[kv.1 := match acc.1 !! kv.1 with
             | Some toRLEs => RLEsAdd C toRLEs kv.2
             | None => kv.2
             end]> acc.1,
   {[kv.1]} ∪ acc.2).

(** The put that [putBlock] queues for [block]. *)
Definition isPutOf (C : Collaborators) (label : Z) (brles : BlockRLEs)
  (block : string) (op : BatchOp) : Prop :=
  exists bytes, MarshalBinary C (default [] (brles !! block)) = inr bytes /\
                op = BatchPut (NewIndex C label block) bytes.

(** The in-memory collaborators with another answer of
    [storage.SmallDataStore]. *)
Definition withStore (h : storeHandle) (C : Collaborators) : Collaborators := {|
  SmallDataStore := h;
  DeleteRange := DeleteRange C;
  ProcessRange := ProcessRange C;
  Commit := Commit C;
  NotifySubscribers := NotifySubscribers C;
  NewIndex := NewIndex C;
  DecodeKey := DecodeKey C;
  GetLabelRLEs := GetLabelRLEs C;
  NewLabel := NewLabel C;
  EncodingBinary := EncodingBinary C;
  UnmarshalBinaryReader := UnmarshalBinaryReader C;
  Partition := Partition C;
  SortedKeys := SortedKeys C;
  MarshalBinary := MarshalBinary C;
  UnmarshalBinary := UnmarshalBinary C;
  RLEsAdd := RLEsAdd C;
  MinIndexBytes := MinIndexBytes C;
  MaxIndexBytes := MaxIndexBytes C;
  MinIndexBytesZ := MinIndexBytesZ C;
  MaxIndexBytesZ := MaxIndexBytesZ C;
  BlockZ := BlockZ C
|}.

(** * The tile side of the file (package googlevoxels)

    The functions of the first package of [googlevoxels.go] that compute on
    plain data: the two-byte form of a tile spec, the lookup of a voxel
    size, the geometry of a tile relative to its scaled volume, the URL of a
    tile, the padding of a clipped tile and the conversion to
    multiscale2d-style levels.  What they use from package [dvid]
    ([DataShape], [Point2d], [GetPoint3dFrom2d], [Expand2d]), from
    [multiscale2d] ([LevelSpec.Duplicate]), from [fmt] and [strconv] is taken
    as a parameter; float32 values are kept abstract. *)

Module GoogleVoxels.

(** [int32(z)] and [byte(z)] *)
Definition wrap32 (z : Z) : Z := (z + 2 ^ 31) mod 2 ^ 32 - 2 ^ 31.
Definition toByte (z : Z) : Z := z mod 256.

(** [s[i]] with [i] an [int]: [None] stands for the index-out-of-range
    panic. *)
Definition indexZ {A : Type} (s : list A) (i : Z) : option A :=
  if i <? 0 then None else s !! Z.to_nat i.

(** [dvid.Point3d], an array of three int32. *)
Record Point3d : Type := mkPoint3d { p0 : Z; p1 : Z; p2 : Z }.

Definition zeroPoint : Point3d := mkPoint3d 0 0 0.

Definition at3 (p : Point3d) (i : nat) : Z :=
  match i with O => p0 p | S O => p1 p | _ => p2 p end.

Definition set3 (p : Point3d) (i : nat) (z : Z) : Point3d :=
  match i with
  | O => mkPoint3d z (p1 p) (p2 p)
  | S O => mkPoint3d (p0 p) z (p2 p)
  | _ => mkPoint3d (p0 p) (p1 p) z
  end.

(** ** TileSpec *)

(** [Scaling] and [TileOrientation] are uint8. *)
Record TileSpec : Type := mkTileSpec { scaling : Z; plane : Z }.

#[global] Instance TileSpec_eq_dec : EqDecision TileSpec.
Proof. solve_decision. Defined.

#[global] Instance TileSpec_countable : Countable TileSpec.
Proof.
  refine (inj_countable' (fun ts => (scaling ts, plane ts))
                         (fun p => mkTileSpec p.1 p.2) _).
  by intros [].
Defined.

Definition XY : Z := 0.
Definition XZ : Z := 1.
Definition YZ : Z := 2.

Definition TileSpec_MarshalBinary (ts : TileSpec) : list Z * option error :=
  ([toByte (scaling ts); toByte (plane ts)], None).

(** The method has a pointer receiver: the result is the tile spec that
    [ts] points to after the call, and the error. *)
Definition TileSpec_UnmarshalBinary (ts : TileSpec) (data : list Z)
  : TileSpec * option error :=
  if decide (length data <> 2%nat) then
    (ts, Some (Errorf "TileSpec serialization is 2 bytes.  Got %d bytes instead: %v"))
  else (mkTileSpec (nth 0 data 0) (nth 1 data 0), None).

Definition TileOrientation_String (t : Z) : string :=
  if decide (t = XY) then "XY"
  else if decide (t = XZ) then "XZ"
  else if decide (t = YZ) then "YZ"
  else "Unknown orientation".

(** ** Geometries and the data instance *)

(** [GeometryMap], a Go map; [GeometryIndex] is an int. *)
Abbreviation GeometryMap := (gmap TileSpec Z).

Section Floats.

(** float32, and [x *= 2] on it. *)
Context {float32 : Type} (zeroFloat : float32) (double : float32 -> float32).

Record Geometry : Type := mkGeometry {
  VolumeSize : Point3d;
  ChannelCount : Z;
  ChannelType : string;
  PixelSize : list float32
}.

(** The fields of [Data] that the functions below read.  A nil [TileMap] is
    [None]; a nil [Scales] is the empty list (the code treats both alike). *)
Record Data : Type := mkData {
  DataName : string;
  TileSize : Z;
  TileMap : option GeometryMap;
  Scales : list Geometry;
  HighResIndex : Z
}.

(** [d.TileMap[ts]] in its one-result form: the zero index when the key is
    missing or the map is nil. *)
Definition tileIndex (d : Data) (ts : TileSpec) : Z :=
  default 0 (TileMap d ≫= fun tm => tm !! ts).

(** [ts] is the pointer argument: [None] is nil. *)
Definition GetVoxelSize (d : Data) (ts : option TileSpec)
  : outcome (error + list float32) :=
  if decide (length (Scales d) = 0%nat) then
    Returns (inl (Errorf "%s has no geometries and therefore no volumes for access"))
  else if decide (TileMap d = None) then
    Returns (inl (Errorf "%d has not been initialized and can't return voxel sizes"))
  else
    match ts with
    | None => Returns (inl (Errorf "Can't get voxel sizes for nil tile spec!"))
    | Some ts =>
        let scaleIndex := tileIndex d ts in
        if decide (scaleIndex > Z.of_nat (length (Scales d))) then
          Returns (inl (Errorf "Can't map tile spec (%v) to available geometries"))
        else
          match indexZ (Scales d) scaleIndex with
          | None => Panics IndexOutOfRange
          | Some geom => Returns (inr (PixelSize geom))
          end
    end.

(** ** getTileSpec *)

(** [multiscale2d.LevelSpec] *)
Record LevelSpec : Type := mkLevelSpec {
  Resolution : list float32;
  LevelTileSize : Point3d
}.

(** The loop [for tileSpec := range tileMap]: the largest scaling of a key,
    whatever the order of the iteration. *)
Definition maxScaling (tileMap : GeometryMap) : Z :=
  foldr (fun (kv : TileSpec * Z) maxScale =>
           if decide (scaling kv.1 > maxScale) then scaling kv.1 else maxScale)
        0 (map_to_list tileMap).

(** [copy(dst, src)] on float slices, [dst] as long as before. *)
Definition copyFloats (dst src : list float32) : list float32 :=
  take (length dst) src ++ drop (length src) dst.

Section Levels.

(** The value that [levelSpec.Duplicate()] leaves in the result for a level
    spec with the given contents. *)
Context {Level : Type} (Duplicate : LevelSpec -> Level).

(** The loop [for scale := Scaling(0); scale <= maxScale; scale++], scale
    being a uint8.  The fuel bounds the number of tests of the condition:
    [None] when it does not suffice.  [multiscale2d.TileSpec] is taken to be
    a Go map keyed by [multiscale2d.Scaling] (the loop converts [scale] to
    that type to index it), so the size given to [make] is only a hint. *)
Fixpoint levelLoop (fuel : nat) (maxScale scale : Z) (levelSpec : LevelSpec)
  (ms2dTileSpec : gmap Z Level) : option (gmap Z Level) :=
  match fuel with
  | O => None
  | S fuel' =>
      if decide (scale <= maxScale) then
        levelLoop fuel' maxScale (toByte (scale + 1))
          (mkLevelSpec (map double (Resolution levelSpec)) (LevelTileSize levelSpec))
          (<[scale := Duplicate levelSpec]> ms2dTileSpec)
      else Some ms2dTileSpec
  end.

Definition getTileSpec (fuel : nat) (tileSize : Z) (hires : Geometry)
  (tileMap : GeometryMap) : option (gmap Z Level) :=
  let maxScale := maxScaling tileMap in
  let levelSpec :=
    mkLevelSpec (copyFloats (replicate 3 zeroFloat) (PixelSize hires))
                (mkPoint3d tileSize tileSize tileSize) in
  levelLoop fuel maxScale 0 levelSpec ∅.

End Levels.

(** ** GetGoogleSpec *)

Record GoogleTileSpec : Type := mkGoogleTileSpec {
  offset : Point3d;
  size : Point3d;
  sizeWant : Point3d;
  gi : Z;
  edge : bool;
  outside : bool;
  channelCount : Z;
  channelType : string;
  bytesPerVoxel : Z
}.

Section Shapes.

(** [dvid.DataShape] with its [Equals] and the three planes, [dvid.Point2d],
    [dvid.GetPoint3dFrom2d] and [Point3d.Expand2d]. *)
Context {DataShape Point2d : Type}
        (Equals : DataShape -> DataShape -> bool)
        (dvidXY dvidXZ dvidYZ : DataShape)
        (GetPoint3dFrom2d : DataShape -> Point2d -> Z -> error + Point3d)
        (Expand2d : Point3d -> DataShape -> Point2d -> Point3d * option error).

Definition GetTileSpec (scaling : Z) (shape : DataShape) : error + TileSpec :=
  if Equals shape dvidXY then inr (mkTileSpec scaling XY)
  else if Equals shape dvidXZ then inr (mkTileSpec scaling XZ)
  else if Equals shape dvidYZ then inr (mkTileSpec scaling YZ)
  else inl (Errorf "No Google BrainMaps slice orientation corresponding to DVID %s shape").

Definition channelBytes (channelType : string) : option Z :=
  if decide (channelType = "uint8") then Some 1
  else if decide (channelType = "float") then Some 4
  else if decide (channelType = "uint64") then Some 8
  else None.

(** One round of the loop [for i := 0; i < 3; i++] on [(tile.edge, adjSize)]. *)
Definition clipAxis (volumeSize offset maxpt : Point3d) (st : bool * Point3d) (i : nat)
  : bool * Point3d :=
  if decide (at3 maxpt i > at3 volumeSize i)
  then (true, set3 st.2 i (wrap32 (at3 volumeSize i - at3 offset i)))
  else st.

Definition GetGoogleSpec (d : Data) (scaling : Z) (plane : DataShape)
  (offset : Point3d) (size : Point2d) : outcome (error + GoogleTileSpec) :=
  match GetPoint3dFrom2d plane size 1 with
  | inl err => Returns (inl err)
  | inr sizeWant =>
      match GetTileSpec scaling plane with
      | inl err => Returns (inl err)
      | inr tileSpec =>
          match TileMap d ≫= (fun tm => tm !! tileSpec) with
          | None =>
              Returns (inl (Errorf "Could not find scaled volume in %q for %s with scaling %d"))
          | Some geomIndex =>
              match indexZ (Scales d) geomIndex with
              | None => Panics IndexOutOfRange
              | Some geom =>
                  match channelBytes (ChannelType geom) with
                  | None =>
                      Returns (inl (Errorf "Unknown volume channel type in %s: %s"))
                  | Some bytes =>
                      let volumeSize := VolumeSize geom in
                      let tile outside edge size :=
                        mkGoogleTileSpec offset size sizeWant geomIndex edge outside
                          (ChannelCount geom) (ChannelType geom) bytes in
                      if decide (at3 offset 0 >= at3 volumeSize 0 \/
                                 at3 offset 1 >= at3 volumeSize 1 \/
                                 at3 offset 2 >= at3 volumeSize 2)
                      then Returns (inr (tile true false zeroPoint))
                      else
                        let maxpt := (Expand2d offset plane size).1 in
                        let '(edge, adjSize) :=
                          foldl (clipAxis volumeSize offset maxpt) (false, sizeWant)
                                [0; 1; 2]%nat in
                        Returns (inr (tile false edge adjSize))
                  end
              end
          end
      end
  end.

End Shapes.

End Floats.

(** ** GetURL *)

(** [strings.Split(s, ":")] *)
Fixpoint splitColon (s : string) : list string :=
  match s with
  | EmptyString => [EmptyString]
  | String c rest =>
      if Ascii.eqb c ":"%char then EmptyString :: splitColon rest
      else match splitColon rest with
           | first :: others => String c first :: others
           | [] => [String c EmptyString]
           end
  end.

Section Formatting.

(** The verb [%d] of [fmt.Sprintf] and [strconv.Atoi]. *)
Context (fmtInt : Z -> string) (Atoi : string -> error + Z).

Definition baseURL (gts : GoogleTileSpec) (volumeid : string) : string :=
  ((("https://www.googleapis.com/brainmaps/v1beta1/volumes/" +:+ volumeid +:+ ":tile?")
    +:+ ("corner=" +:+ fmtInt (p0 (offset gts)) +:+ "," +:+ fmtInt (p1 (offset gts))
                   +:+ "," +:+ fmtInt (p2 (offset gts)) +:+ "&"))
    +:+ ("size=" +:+ fmtInt (p0 (size gts)) +:+ "," +:+ fmtInt (p1 (size gts))
                 +:+ "," +:+ fmtInt (p2 (size gts)) +:+ "&"))
    +:+ ("scale=" +:+ fmtInt (gi gts)).

Definition GetURL (gts : GoogleTileSpec) (volumeid formatStr : string)
  : string * option error :=
  let url := baseURL gts volumeid in
  if decide (formatStr <> "") then
    let format := splitColon formatStr in
    let format0 := if decide (nth 0 format "" = "jpg") then "jpeg" else nth 0 format "" in
    let url := url +:+ ("&format=" +:+ format0) in
    if decide (1 < length format)%nat then
      match Atoi (nth 1 format "") with
      | inl err => (url, Some err)
      | inr level =>
          if decide (format0 = "jpeg") then
            (url +:+ ("&jpegQuality=" +:+ fmtInt level), None)
          else if decide (format0 = "png") then
            (url +:+ ("&pngCompressionLevel=" +:+ fmtInt level), None)
          else (url, None)
      end
    else (url, None)
  else (url, None).

End Formatting.

(** ** padTile *)

(** How a call of [padTile] ends: it returns, or one of two run-time panics. *)
Inductive padded (A : Type) : Type :=
| Padded (a : A)
| SliceBoundsOutOfRange      (* slice bounds out of range *)
| MakeSliceLenOutOfRange.    (* makeslice: len out of range *)
Arguments Padded {A} a.
Arguments SliceBoundsOutOfRange {A}.
Arguments MakeSliceLenOutOfRange {A}.

(** [0 <= lo <= hi <= cap(s)], the check of the slice expression [s[lo:hi]]. *)
Definition inBounds (lo hi : Z) (cap : nat) : bool :=
  (0 <=? lo) && (lo <=? hi) && (hi <=? Z.of_nat cap).

(** [copy(out[lo:hi], src)], the bounds of [out[lo:hi]] being checked. *)
Definition copyAt (out : list Z) (lo hi : Z) (src : list Z) : list Z :=
  let n := Nat.min (Z.to_nat (hi - lo)) (length src) in
  take (Z.to_nat lo) out ++ take n src ++ drop (Z.to_nat lo + n) out.

(** The loop [for y := int32(0); y < gts.size[1]; y++], [rows] rounds of it.
    [buf] is the whole backing array of [data]. *)
Fixpoint padRows (rows : nat) (inRowBytes outRowBytes inI outI : Z)
  (buf out : list Z) : padded (list Z) :=
  match rows with
  | O => Padded out
  | S rows' =>
      if inBounds outI (wrap32 (outI + inRowBytes)) (length out) then
        if inBounds inI (wrap32 (inI + inRowBytes)) (length buf) then
          padRows rows' inRowBytes outRowBytes
            (wrap32 (inI + inRowBytes)) (wrap32 (outI + outRowBytes)) buf
            (copyAt out outI (wrap32 (outI + inRowBytes))
               (take (Z.to_nat (wrap32 (inI + inRowBytes) - inI))
                     (drop (Z.to_nat inI) buf)))
        else SliceBoundsOutOfRange
      else SliceBoundsOutOfRange
  end.

(** [data] holds the [len(data)] bytes of the slice, [spare] what its
    backing array holds beyond them (up to [cap(data)]). *)
Definition padTile (gts : GoogleTileSpec) (data spare : list Z)
  : padded (list Z * option error) :=
  if decide (wrap32 (wrap32 (p0 (size gts) * p1 (size gts)) * bytesPerVoxel gts)
             <> wrap32 (Z.of_nat (length data))) then
    Padded ([], Some (Errorf
      "Before padding, for %d x %d x %d bytes/voxel tile, received %d bytes"))
  else
    let inRowBytes := wrap32 (p0 (size gts) * bytesPerVoxel gts) in
    let outRowBytes := wrap32 (p0 (sizeWant gts) * bytesPerVoxel gts) in
    let outBytes := wrap32 (outRowBytes * p1 (sizeWant gts)) in
    if decide (outBytes < 0) then MakeSliceLenOutOfRange
    else
      match padRows (Z.to_nat (p1 (size gts))) inRowBytes outRowBytes 0 0
                    (data ++ spare) (replicate (Z.to_nat outBytes) 0) with
      | Padded out => Padded (out, None)
      | SliceBoundsOutOfRange => SliceBoundsOutOfRange
      | MakeSliceLenOutOfRange => MakeSliceLenOutOfRange
      end.

(** ** An instance of the parameters *)

(** Shapes are numbered 0 (XY), 1 (XZ), 2 (YZ); a [Point2d] is a pair. *)
Module Flat.

Definition getPoint3dFrom2d (shape : Z) (p : Z * Z) (fill : Z) : error + Point3d :=
  if decide (shape = 0) then inr (mkPoint3d p.1 p.2 fill)
  else if decide (shape = 1) then inr (mkPoint3d p.1 fill p.2)
  else if decide (shape = 2) then inr (mkPoint3d fill p.1 p.2)
  else inl (Errorf "bad shape").

Definition expand2d (pt : Point3d) (shape : Z) (p : Z * Z) : Point3d * option error :=
  if decide (shape = 0) then (mkPoint3d (p0 pt + p.1) (p1 pt + p.2) (p2 pt), None)
  else if decide (shape = 1) then (mkPoint3d (p0 pt + p.1) (p1 pt) (p2 pt + p.2), None)
  else if decide (shape = 2) then (mkPoint3d (p0 pt) (p1 pt + p.1) (p2 pt + p.2), None)
  else (pt, Some (Errorf "bad shape")).

(** A 100 x 80 x 60 volume of uint8 at scale 0 in XY. *)
Definition volume : Data (float32 := Z) :=
  mkData "grayscale" 512
    (Some {[mkTileSpec 0 XY := 0]})
    [mkGeometry (mkPoint3d 100 80 60) 1 "uint8" [8; 8; 8]] 0.

(** A 2 x 2 tile of one byte per voxel clipped from a wanted 3 x 3. *)
Definition clipped : GoogleTileSpec :=
  mkGoogleTileSpec zeroPoint (mkPoint3d 2 2 1) (mkPoint3d 3 3 1) 0 true false 1 "uint8" 1.

End Flat.

End GoogleVoxels.

(** * Properties *)

Example excise_middle :
  Excise (mkRLE 0 0 0 10) (mkRLE 2 0 0 3) = Some [mkRLE 0 0 0 2; mkRLE 5 0 0 5].
Proof. reflexivity. Qed.

Example excise_disjoint : Excise (mkRLE 0 0 0 5) (mkRLE 10 0 0 2) = None.
Proof. reflexivity. Qed.

Example excise_all : Excise (mkRLE 0 0 0 5) (mkRLE 0 0 0 5) = Some [].
Proof. reflexivity. Qed.

(** ** The RLE model *)

Lemma insertRLE_perm r rles : insertRLE r rles ≡ₚ r :: rles.
Proof.
  induction rles as [|r' rest IH]; simpl; [done|].
  destruct (rle_less r' r); [|done].
  rewrite IH. apply Permutation_swap.
Qed.

(** [sortRLEs] rearranges the runs and changes none. *)
Lemma sortRLEs_perm rles : sortRLEs rles ≡ₚ rles.
Proof.
  induction rles as [|r rest IH]; simpl; [done|].
  by rewrite insertRLE_perm, IH.
Qed.

(** What [Excise] leaves of a run is the run without the voxels of the
    cut. *)
Lemma Excise_covers orig cut frags x y z :
  0 < runLength orig -> 0 < runLength cut ->
  Excise orig cut = Some frags ->
  coversAny frags x y z <-> covers orig x y z /\ ~ covers cut x y z.
Proof.
  intros Ho Hc. unfold Excise, coversAny, covers, lastX.
  destruct (startY orig =? startY cut) eqn:EY; [|done].
  destruct (startZ orig =? startZ cut) eqn:EZ; [|done]. simpl.
  apply Z.eqb_eq in EY, EZ.
  destruct (startX cut + runLength cut - 1 <? startX orig) eqn:E1; [done|].
  destruct (startX orig + runLength orig - 1 <? startX cut) eqn:E2; [done|]. simpl.
  apply Z.ltb_ge in E1, E2.
  destruct (startX orig <? startX cut) eqn:E3;
    destruct (startX cut + runLength cut - 1 <? startX orig + runLength orig - 1) eqn:E4;
    intros [= <-]; simpl;
    rewrite ?Exists_cons, ?Exists_nil; simpl;
    rewrite ?Z.ltb_lt, ?Z.ltb_ge in *; lia.
Qed.

Lemma rle_less_asym a b : rle_less a b = true -> rle_less b a = false.
Proof.
  unfold rle_less.
  repeat match goal with
         | |- context [?x <? ?y] => destruct (Z.ltb_spec x y)
         end; try done; lia.
Qed.

Lemma insertRLE_head r rles (R := fun a b => rle_less b a = false) x :
  R x r -> HdRel R x rles -> HdRel R x (insertRLE r rles).
Proof.
  intros Hr Hh. destruct rles as [|r' rest]; simpl; [by constructor|].
  destruct (rle_less r' r); constructor; [|done].
  by inversion Hh.
Qed.

(** [sortRLEs] leaves the runs in ascending order of [rle_less]. *)
Lemma sortRLEs_sorted rles :
  Sorted (fun a b => rle_less b a = false) (sortRLEs rles).
Proof.
  induction rles as [|r rest IH]; simpl; [constructor|].
  generalize dependent (sortRLEs rest). clear rest.
  induction l as [|r' l IHl]; intros Hs; simpl.
  - repeat constructor.
  - apply Sorted_inv in Hs as [Hs Hh].
    destruct (rle_less r' r) eqn:E.
    + constructor; [by apply IHl|].
      apply insertRLE_head; [by apply rle_less_asym|done].
    + repeat constructor; done.
Qed.

(** ** diffBlock *)

Section DiffBlockFacts.

Lemma insertRLE_length r rles : length (insertRLE r rles) = S (length rles).
Proof.
  induction rles as [|r' rest IH]; simpl; [done|].
  destruct (rle_less r' r); simpl; [by rewrite IH | done].
Qed.

Lemma sortRLEs_length rles : length (sortRLEs rles) = length rles.
Proof.
  induction rles as [|r rest IH]; simpl; [done|].
  by rewrite insertRLE_length, IH.
Qed.




Lemma diffBlock_no_orig split : diffBlock split [] = Returns ([], true, None).
Proof. unfold diffBlock. simpl. by destruct (sortRLEs split). Qed.

End DiffBlockFacts.

(** C1.  On a split that is a strict subset of the original's voxels
    (voxels 2..4 of the run 0..9) [diffBlock] returns no remaining runs: it
    panics with a nil dereference; and it panics in the same way when the
    split is exactly the original, instead of reporting a full duplicate. *)
Theorem diffBlock_subset_split_panics :
  diffBlock [mkRLE 2 0 0 3] [mkRLE 0 0 0 10] = Panics NilDereference /\
  diffBlock [mkRLE 0 0 0 10] [mkRLE 0 0 0 10] = Panics NilDereference.
Proof. split; reflexivity. Qed.

(** The input of [diffBlock_subset_split_panics] meets the precondition of
    the differencer: every voxel of the split is a voxel of the original. *)
Lemma subset_split_is_subset x y z :
  coversAny [mkRLE 2 0 0 3] x y z -> coversAny [mkRLE 0 0 0 10] x y z.
Proof.
  unfold coversAny. rewrite !Exists_cons, !Exists_nil.
  unfold covers, lastX; simpl. intros [H|[]]. left. lia.
Qed.

(** C4.  [diffBlock] reports "split is not contained within single label"
    for a split run that does intersect an original run (the second one),
    and reports no error for a split run when there is no original run at
    all. *)
Theorem diffBlock_error_on_contained_split :
  diffBlock [mkRLE 10 0 0 2] [mkRLE 0 0 0 5; mkRLE 10 0 0 5]
    = Returns ([], false, Some errBadSplit) /\
  intersects (mkRLE 10 0 0 5) (mkRLE 10 0 0 2) = true /\
  diffBlock [mkRLE 0 0 0 1] [] = Returns ([], true, None).
Proof. repeat split; reflexivity. Qed.

(** ** diffBlock leaves the caller's slices alone *)

Section MemFacts.
Import Mem.

Lemma make_sub (h0 h : heap) n : h0 ⊆ h -> h0 ⊆ (make h n).2.
Proof.
  intros Hsub. unfold make; simpl.
  etrans; [exact Hsub|].
  apply insert_subseteq, not_elem_of_dom, is_fresh.
Qed.

Lemma make_fresh (h0 h : heap) n : h0 ⊆ h -> h0 !! arr (make h n).1 = None.
Proof.
  intros Hsub. unfold make; simpl.
  destruct (h0 !! fresh (dom h)) eqn:E; [|done].
  eapply lookup_weaken in E; [|exact Hsub].
  pose proof (is_fresh (dom h)) as Hf.
  exfalso. apply Hf, elem_of_dom. eauto.
Qed.

Lemma alter_sub (h0 h : heap) f a : h0 ⊆ h -> h0 !! a = None -> h0 ⊆ alter f a h.
Proof.
  intros Hsub Ha. apply map_subseteq_spec. intros i x Hi.
  rewrite lookup_alter_ne; [by eapply lookup_weaken|].
  intros ->. congruence.
Qed.

Lemma storeSeg_sub (h0 h : heap) s vs :
  h0 ⊆ h -> h0 !! arr s = None -> h0 ⊆ storeSeg h s vs.
Proof. apply alter_sub. Qed.

Lemma setFirst_fold_sub (h0 : heap) s vs : forall h,
  h0 ⊆ h -> h0 !! arr s = None -> h0 ⊆ foldl (fun h v => setFirst h s v) h vs.
Proof.
  induction vs as [|v vs IH]; intros h Hsub Ha; simpl; [done|].
  apply IH; [|done]. by apply alter_sub.
Qed.

(** Every backing array that exists before the call is the same after
  it, whatever the call's outcome. *)
Lemma diffBlock_heap_grows (h : heap) split orig :
  h ⊆ (Mem.diffBlock h split orig).2.
Proof.
  unfold Mem.diffBlock.
  destruct (make h (len split)) as [srles h1] eqn:E1.
  assert (h ⊆ h1) as S1 by (replace h1 with (make h (len split)).2 by (by rewrite E1); by apply make_sub).
  assert (h !! arr srles = None) as F1
    by (replace srles with (make h (len split)).1 by (by rewrite E1); by apply make_fresh).
  pose proof (storeSeg_sub h h1 srles (take (len srles) (read h1 split)) S1 F1) as S2.
  fold (copy h1 srles split) in S2.
  destruct (make (copy h1 srles split) (len orig)) as [orles h3] eqn:E3.
  assert (h ⊆ h3) as S3
    by (replace h3 with (make (copy h1 srles split) (len orig)).2 by (by rewrite E3);
        by apply make_sub).
  assert (h !! arr orles = None) as F3
    by (replace orles with (make (copy h1 srles split) (len orig)).1 by (by rewrite E3);
        by apply make_fresh).
  pose proof (storeSeg_sub h h3 orles (take (len orles) (read h3 orig)) S3 F3) as S4.
  fold (copy h3 orles orig) in S4.
  set (h4 := copy h3 orles orig) in *.
  pose proof (storeSeg_sub h h4 srles (sortRLEs (read h4 srles)) S4 F1) as S5.
  fold (sortSlice h4 srles) in S5.
  set (h5 := sortSlice h4 srles) in *.
  pose proof (storeSeg_sub h h5 orles (sortRLEs (read h5 orles)) S5 F3) as S6.
  fold (sortSlice h5 orles) in S6.
  set (h6 := sortSlice h5 orles) in *.
  destruct (diffLoop _ _ _) as [l'| |p]; simpl; try done.
  destruct (decide (length l' = 0%nat)); simpl; [done|].
  destruct (make h6 (length l')) as [modified h7] eqn:E7.
  simpl. apply setFirst_fold_sub.
  - replace h7 with (make h6 (length l')).2 by (by rewrite E7). by apply make_sub.
  - replace modified with (make h6 (length l')).1 by (by rewrite E7). by apply make_fresh.
Qed.

Lemma read_sub (h h' : heap) s : h ⊆ h' -> is_Some (h !! arr s) -> read h' s = read h s.
Proof.
  intros Hsub [a Ha]. unfold read.
  by rewrite (lookup_weaken _ _ _ _ Ha Hsub), Ha.
Qed.

End MemFacts.

(** C10.  After [diffBlock], whatever its outcome, the caller's [split] and
    [orig] slices hold the same runs in the same order as before the call. *)
Theorem diffBlock_inputs_unchanged (h : Mem.heap) (split orig : Mem.slice) :
  is_Some (h !! Mem.arr split) -> is_Some (h !! Mem.arr orig) ->
  Mem.read (Mem.diffBlock h split orig).2 split = Mem.read h split /\
  Mem.read (Mem.diffBlock h split orig).2 orig = Mem.read h orig.
Proof.
  intros Hs Ho. split; apply read_sub; auto using diffBlock_heap_grows.
Qed.

(** ** The two models of diffBlock agree *)

Section MemAgrees.

Lemma read_whole (h : Mem.heap) a vs n :
  h !! a = Some vs -> n = length vs -> Mem.read h (Mem.mkSlice a 0 n) = vs.
Proof.
  intros Ha ->. unfold Mem.read; simpl. by rewrite Ha, drop_0, firstn_all.
Qed.

Lemma read_length (h : Mem.heap) s : Mem.valid h s -> length (Mem.read h s) = Mem.len s.
Proof.
  intros (a & Ha & Hlen). unfold Mem.read. rewrite Ha; simpl.
  rewrite length_take, length_drop. lia.
Qed.

Lemma read_insert_ne (h : Mem.heap) a vs s :
  Mem.arr s <> a -> Mem.read (<[a := vs]> h) s = Mem.read h s.
Proof. intros Hne. unfold Mem.read. by rewrite lookup_insert_ne. Qed.

Lemma storeSeg_whole (h : Mem.heap) a old vs n :
  h !! a = Some old -> length vs = length old ->
  Mem.storeSeg h (Mem.mkSlice a 0 n) vs = <[a := vs]> h.
Proof.
  intros Ha Hlen. unfold Mem.storeSeg; simpl.
  apply map_eq. intros i. destruct (decide (i = a)) as [->|Hne].
  - rewrite lookup_alter_eq, lookup_insert_eq, Ha; simpl.
    by rewrite Hlen, drop_all, app_nil_r.
  - by rewrite lookup_alter_ne, lookup_insert_ne.
Qed.

Lemma setFirst_fold (h : Mem.heap) a k vs : forall old,
  h !! a = Some old ->
  foldl (fun h v => Mem.setFirst h (Mem.mkSlice a 0 k) v) h vs !! a =
    Some (foldl (fun modified v => <[0%nat := v]> modified) old vs).
Proof.
  revert h. induction vs as [|v vs IH]; intros h old Ha; simpl; [done|].
  apply IH. unfold Mem.setFirst; simpl. by rewrite lookup_alter_eq, Ha.
Qed.

(** On slices that lie within allocated arrays, [Mem.diffBlock] panics
    when [diffBlock] on the runs they hold panics, and otherwise returns the
    same error, the same duplicate flag and a Mem.slice holding the same
    runs. *)
Lemma Mem_diffBlock_agrees (h : Mem.heap) (split orig : Mem.slice) :
  Mem.valid h split -> Mem.valid h orig ->
  match (Mem.diffBlock h split orig).1, diffBlock (Mem.read h split) (Mem.read h orig) with
  | Panics p, Panics q => p = q
  | Returns (modified, dup, err), Returns (modified', dup', err') =>
      Mem.readResult (Mem.diffBlock h split orig).2 modified = modified' /\
      dup = dup' /\ err = err'
  | _, _ => False
  end.
Proof.
  intros Vs Vo.
  pose proof (read_length _ _ Vs) as Ls. pose proof (read_length _ _ Vo) as Lo.
  destruct Vs as (as_ & Has & _). destruct Vo as (ao & Hao & _).
  unfold Mem.diffBlock, diffBlock, Mem.make. cbn [fst snd].
  set (a1 := fresh (dom h)).
  assert (h !! a1 = None) as F1 by apply not_elem_of_dom, is_fresh.
  set (h1 := <[a1 := replicate (Mem.len split) zeroRLE]> h).
  assert (Mem.copy h1 (Mem.mkSlice a1 0 (Mem.len split)) split = <[a1 := Mem.read h split]> h1) as ->.
  { unfold Mem.copy. cbn [Mem.len]. unfold h1 at 2.
    rewrite (read_insert_ne h a1 _ split) by congruence.
    rewrite take_ge by lia.
    eapply storeSeg_whole; [apply lookup_insert_eq|].
    by rewrite length_replicate. }
  set (h2 := <[a1 := Mem.read h split]> h1).
  set (a2 := fresh (dom h2)).
  assert (h2 !! a2 = None) as F2 by apply not_elem_of_dom, is_fresh.
  assert (a2 <> a1) as N21.
  { intros E. rewrite E in F2. unfold h2 in F2. by rewrite lookup_insert_eq in F2. }
  assert (h !! a2 = None) as F2'.
  { unfold h2, h1 in F2. by rewrite 2!lookup_insert_ne in F2 by done. }
  set (h3 := <[a2 := replicate (Mem.len orig) zeroRLE]> h2).
  assert (Mem.copy h3 (Mem.mkSlice a2 0 (Mem.len orig)) orig = <[a2 := Mem.read h orig]> h3) as ->.
  { unfold Mem.copy. cbn [Mem.len]. unfold h3, h2, h1.
    rewrite !(read_insert_ne _ _ _ orig) by congruence.
    rewrite take_ge by lia.
    eapply storeSeg_whole; [apply lookup_insert_eq|].
    by rewrite length_replicate. }
  set (h4 := <[a2 := Mem.read h orig]> h3).
  assert (h4 !! a1 = Some (Mem.read h split)) as H41.
  { unfold h4, h3, h2. rewrite 2!lookup_insert_ne by done. apply lookup_insert_eq. }
  assert (Mem.sortSlice h4 (Mem.mkSlice a1 0 (Mem.len split)) = <[a1 := sortRLEs (Mem.read h split)]> h4) as ->.
  { unfold Mem.sortSlice. rewrite (read_whole h4 a1 (Mem.read h split)) by done.
    eapply storeSeg_whole; [exact H41|]. apply sortRLEs_length. }
  set (h5 := <[a1 := sortRLEs (Mem.read h split)]> h4).
  assert (h5 !! a2 = Some (Mem.read h orig)) as H52.
  { unfold h5, h4. rewrite lookup_insert_ne by done. apply lookup_insert_eq. }
  assert (Mem.sortSlice h5 (Mem.mkSlice a2 0 (Mem.len orig)) = <[a2 := sortRLEs (Mem.read h orig)]> h5) as ->.
  { unfold Mem.sortSlice. rewrite (read_whole h5 a2 (Mem.read h orig)) by done.
    eapply storeSeg_whole; [exact H52|]. apply sortRLEs_length. }
  set (h6 := <[a2 := sortRLEs (Mem.read h orig)]> h5).
  rewrite (read_whole h6 a2 (sortRLEs (Mem.read h orig)))
    by (first [apply lookup_insert_eq | by rewrite sortRLEs_length]).
  rewrite (read_whole h6 a1 (sortRLEs (Mem.read h split)))
    by (first [ unfold h6, h5; rewrite lookup_insert_ne by done; apply lookup_insert_eq
              | by rewrite sortRLEs_length ]).
  destruct (diffLoop _ _ _) as [l'| |p]; cbn [fst snd]; [|done..].
  destruct (decide (length l' = 0%nat)); cbn [fst snd]; [done|].
  split; [|done]. unfold Mem.readResult, Mem.read. cbn [Mem.arr Mem.off Mem.len].
  erewrite setFirst_fold by apply lookup_insert_eq. simpl.
  rewrite drop_0. unfold collect.
  apply firstn_all2.
  assert (forall (l : list RLE) start,
            length (foldl (fun modified v => <[0%nat := v]> modified) start l)
              = length start) as H.
  { clear. induction l as [|v l IH]; intros start; simpl; [done|].
    by rewrite IH, length_insert. }
  by rewrite H, length_replicate.
Qed.

End MemAgrees.

(** ** Running a body step by step *)

Section GoRules.

Context {R A B : Type}.
Implicit Types (k : A -> Go R B) (w : world).

Lemma bind_ret (a : A) k w : bind (ret a) k w = k a w.
Proof. reflexivity. Qed.

Lemma bind_return (r : R) k w : bind (return_ r) k w = (Return r, w).
Proof. reflexivity. Qed.

Lemma bind_panic (p : panic) k w : bind (panic_ p) k w = (Panic p, w).
Proof. reflexivity. Qed.

Lemma bind_bind {A'} (m : Go R A') (f : A' -> Go R A) k w :
    bind (bind m f) k w = bind m (fun a => bind (f a) k) w.
Proof. unfold bind. by destruct (m w) as [[a|r|p] w']. Qed.

Lemma bind_try (x : error + A) (r : error -> R) k w :
    bind (try x r) k w =
      match x with inl e => (Return (r e), w) | inr a => k a w end.
Proof. by destruct x. Qed.

End GoRules.

Section GoRulesUnit.

Context {R B : Type}.
Implicit Types (w : world).

Lemma bind_check (err : option error) (r : error -> R) (k : unit -> Go R B) w :
    bind (check err r) k w =
      match err with Some e => (Return (r e), w) | None => k tt w end.
Proof. by destruct err. Qed.

Lemma bind_getKV (k : kvstore -> Go R B) w : bind getKV k w = k (kv w) w.
Proof. reflexivity. Qed.

Lemma bind_setDirty f (k : unit -> Go R B) w :
    bind (setDirty f) k w = k tt (mkWorld (events w) (f (dirty w)) (kv w) (logged w)).
Proof. reflexivity. Qed.

Lemma bind_logError msg (k : unit -> Go R B) w :
    bind (logError msg) k w =
      k tt (mkWorld (events w) (dirty w) (kv w) (logged w ++ [msg])).
Proof. reflexivity. Qed.

Lemma bind_notify C evt msg (k : option error -> Go R B) w :
    bind (notify C evt msg) k w =
      k (NotifySubscribers C (events w) evt msg)
        (mkWorld (events w ++ [(evt, msg)]) (dirty w) (kv w) (logged w)).
Proof. reflexivity. Qed.

Lemma bind_deleteRange C a b (k : option error -> Go R B) w :
    bind (deleteRange C a b) k w =
      k (DeleteRange C (kv w) a b).2
        (mkWorld (events w) (dirty w) (DeleteRange C (kv w) a b).1 (logged w)).
Proof. unfold bind, deleteRange. by destruct (DeleteRange C (kv w) a b). Qed.

Lemma bind_commit C batch (k : option error -> Go R B) w :
    bind (commit C batch) k w =
      k (Commit C batch (kv w)).2
        (mkWorld (events w) (dirty w) (Commit C batch (kv w)).1 (logged w)).
Proof. unfold bind, commit. by destruct (Commit C batch (kv w)). Qed.

Lemma bind_openStore C (r : error -> R) (k : unit -> Go R B) w :
    bind (openStore C r) k w =
      match SmallDataStore C with
      | StoreFails err =>
          (Return (r (ErrorfWrap "Data type labelvol had error initializing store: %s\n" err)), w)
      | StoreNoBatch =>
          (Return (r (Errorf "Data type labelvol requires batch-enabled store, which %q is not\n")), w)
      | StoreBatcher => k tt w
      end.
Proof. unfold openStore. by destruct (SmallDataStore C). Qed.

Lemma forRange_cons {A S} (x : A) xs (s : S) (body : S -> A -> Go R S) :
    forRange (x :: xs) s body = bind (body s x) (fun s' => forRange xs s' body).
Proof. reflexivity. Qed.

End GoRulesUnit.

Lemma bind_call {R A B} (f : world -> outcome A * world) (k : A -> Go R B) w :
  bind (call f) k w =
    match f w with
    | (Returns a, w') => k a w'
    | (Panics p, w') => (Panic p, w')
    end.
Proof. unfold bind, call. by destruct (f w) as [[a|p] w']. Qed.

Ltac go_reduce := cbn beta iota zeta delta [fst snd events dirty kv logged].

Ltac go :=
  repeat first
    [ rewrite bind_bind | rewrite bind_ret | rewrite bind_return | rewrite bind_panic
    | rewrite bind_try | rewrite bind_check | rewrite bind_getKV
    | rewrite bind_setDirty | rewrite bind_logError | rewrite bind_notify
    | rewrite bind_deleteRange | rewrite bind_commit | rewrite bind_openStore
    | rewrite bind_call | progress go_reduce ].

Lemma bind_forRange {R A S B} (xs : list A) (s : S) (body : S -> A -> Go R S)
  (k : S -> Go R B) w :
  bind (forRange xs s body) k w =
    match forRange xs s body w with
    | (Next a, w') => k a w'
    | (Return r, w') => (Return r, w')
    | (Panic p, w') => (Panic p, w')
    end.
Proof. reflexivity. Qed.

(** ** The dirty label tracker *)

Section DirtyFacts.
Import DirtyCache.

Lemma count_Incr (iv label : Z) (d : registry) (iv' label' : Z) :
  count (Incr iv label d) iv' label' =
    (count d iv' label' + if decide ((iv, label) = (iv', label')) then 1 else 0)%nat.
Proof.
  unfold Incr, count. rewrite lookup_insert.
  destruct (decide ((iv, label) = (iv', label'))) as [[= -> ->]|Hne]; simpl; lia.
Qed.

Lemma count_Decr (iv label : Z) (d : registry) (iv' label' : Z) :
  count (Decr iv label d) iv' label' =
    (count d iv' label' - if decide ((iv, label) = (iv', label')) then 1 else 0)%nat.
Proof.
  unfold Decr.
  destruct (decide ((iv, label) = (iv', label'))) as [[= -> ->]|Hne].
  - destruct (count d iv' label') as [|[|n]] eqn:E; unfold count.
    + by rewrite lookup_delete_eq.
    + by rewrite lookup_delete_eq.
    + rewrite lookup_insert_eq. simpl. lia.
  - destruct (count d iv label) as [|[|n]]; unfold count;
      rewrite ?lookup_delete_ne, ?lookup_insert_ne by done; lia.
Qed.

Lemma count_Incr_all (iv : Z) (ls : list Z) (iv' label' : Z) : forall d : registry,
  count (foldl (fun d label => Incr iv label d) d ls) iv' label' =
    (count d iv' label' + occurrences iv ls iv' label')%nat.
Proof.
  unfold occurrences.
  induction ls as [|l ls IH]; intros d; simpl; [lia|].
  rewrite IH, count_Incr, filter_cons.
  destruct (decide ((iv, l) = (iv', label'))); simpl; lia.
Qed.

Lemma count_Decr_all (iv : Z) (ls : list Z) (iv' label' : Z) : forall d : registry,
  count (foldl (fun d label => Decr iv label d) d ls) iv' label' =
    (count d iv' label' - occurrences iv ls iv' label')%nat.
Proof.
  unfold occurrences.
  induction ls as [|l ls IH]; intros d; simpl; [lia|].
  rewrite IH, count_Decr, filter_cons.
  destruct (decide ((iv, l) = (iv', label'))); simpl; lia.
Qed.

Lemma RemoveMerge_AddMerge (iv : Z) (m : MergeOp) (d : registry) :
  sameMarks (RemoveMerge iv m (AddMerge iv m d)) d.
Proof.
  intros iv' label'. unfold RemoveMerge, AddMerge.
  rewrite count_Decr_all, count_Decr, count_Incr_all, count_Incr.
  destruct (decide ((iv, Target m) = (iv', label'))); lia.
Qed.

Lemma Decr_Incr (iv label : Z) (d : registry) : sameMarks (Decr iv label (Incr iv label d)) d.
Proof.
  intros iv' label'. rewrite count_Decr, count_Incr.
  destruct (decide ((iv, label) = (iv', label'))); lia.
Qed.

Lemma sameMarks_refl (d : registry) : sameMarks d d.
Proof. by intros ? ?. Qed.

End DirtyFacts.

(** ** The loops of MergeLabels *)

Section MergeLoop.

Context (C : Collaborators).

Lemma wrap64_add_l a b : wrap64 (wrap64 a + b) = wrap64 (a + b).
Proof. unfold wrap64. by rewrite Zplus_mod_idemp_l. Qed.

Lemma wrap64_add_r a b : wrap64 (a + wrap64 b) = wrap64 (a + b).
Proof. unfold wrap64. by rewrite Zplus_mod_idemp_r. Qed.

Lemma mergedSizes_length v ls : forall s, length (mergedSizes C v ls s) = length ls.
Proof. induction ls as [|l ls IH]; intros s; simpl; [done|]. by rewrite IH. Qed.

Lemma kinds_deleteEvents ls sizes :
  length sizes = length ls ->
  kinds (deleteEvents ls sizes) = replicate (length ls) ChangeSizeEvent.
Proof.
  revert sizes. induction ls as [|l ls IH]; intros [|s sizes] Hlen; simpl in *; try done.
  f_equal. apply IH. lia.
Qed.

(** The loop over [m.Merged]: it notifies one size deletion per label, with
    the count read for it, adds the counts up, and leaves the registry and
    the log alone; an early return is an error and comes after some of
    these notifications. *)
Lemma mergeLoop_spec v toLabel ls : forall added to changed w,
  match forRange ls (added, to, changed) (mergeOne C v toLabel) w with
  | (Next (added', _, _), w') =>
      events w' = events w ++ deleteEvents ls (mergedSizes C v ls (kv w)) /\
      wrap64 added' = wrap64 (added + sumZ (mergedSizes C v ls (kv w))) /\
      dirty w' = dirty w /\ logged w' = logged w
  | (Return r, w') =>
      is_Some r /\
      (exists n, events w' = events w ++ take n (deleteEvents ls (mergedSizes C v ls (kv w)))) /\
      dirty w' = dirty w /\ logged w' = logged w
  | (Panic _, _) => False
  end.
Proof.
  induction ls as [|label rest IH]; intros added to changed w.
  - simpl. rewrite app_nil_r, Z.add_0_r. done.
  - rewrite forRange_cons. unfold mergeOne at 1. go.
    cbn [mergedSizes]. unfold voxelsRead.
    destruct (GetLabelRLEs C (kv w) v label) as [e|fromRLEs] eqn:EG.
    { split; [eauto|]. split; [exists 0%nat; by rewrite app_nil_r|done]. }
    go.
    destruct (NotifySubscribers C (events w) ChangeSizeEvent _) eqn:EN.
    { split; [eauto|]. split; [|done]. exists 1%nat. simpl. by rewrite take_0. }
    destruct (mergeBlocks C to changed fromRLEs) as [to' changed'].
    go. fold (deleteLabel C (kv w) label).
    destruct (DeleteRange C (kv w) _ _).2.
    { split; [eauto|]. split; [|done]. exists 1%nat. simpl. by rewrite take_0. }
    match goal with |- context [forRange rest ?st _ ?w1] =>
      specialize (IH (wrap64 (added + BlockNumVoxels fromRLEs)) to' changed' w1) end.
    cbn [events dirty kv logged] in IH.
    destruct (forRange rest _ _ _) as [[[[added' ?] ?]|r|p] w'].
    + destruct IH as (He & Ha & Hd & Hl). repeat split; try done.
      * rewrite He, <- app_assoc. done.
      * rewrite Ha, wrap64_add_l. simpl. f_equal. lia.
    + destruct IH as (Hr & [n He] & Hd & Hl). repeat split; try done.
      exists (S n). by rewrite He, <- app_assoc.
    + done.
Qed.

(** The loops that queue the puts touch nothing of the world; an early
    return is an error. *)
Lemma putLoop_spec label brles blks : forall batch w,
  match forRange blks batch (putBlock C label brles) w with
  | (Next _, w') => w' = w
  | (Return r, w') => is_Some r /\ w' = w
  | (Panic _, _) => False
  end.
Proof.
  induction blks as [|b blks IH]; intros batch w; [done|].
  rewrite forRange_cons. unfold putBlock at 1. go.
  destruct (MarshalBinary C _); [eauto|]. go. apply IH.
Qed.

End MergeLoop.

(** ** Every call of MergeLabels ends in one of the ways of [MergeRun] *)

Section MergeRuns.

Context (C : Collaborators).

Lemma merge_fails_early v m w e t w' :
  events w' = events w ++ t -> logged w' = logged w ->
  sameMarks (dirty w') (dirty w) ->
  kinds t `prefix_of` mergeOrder (length (Merged m)) ->
  MergeRun C v m w (Returns (Some e)) w'.
Proof.
  destruct w' as [ev d s lg]; simpl. intros -> -> Hd Hp.
  by apply MergeFailsEarly.
Qed.

Lemma kinds_app t1 t2 : kinds (t1 ++ t2) = kinds t1 ++ kinds t2.
Proof. apply map_app. Qed.

Lemma kinds_take n t : kinds (take n t) = take n (kinds t).
Proof. unfold kinds. by rewrite <- fmap_take. Qed.

Lemma kinds_mergeHead v m w changed :
  kinds (mergeHead C v m w changed) =
    MergeStartEvent :: replicate (length (Merged m)) ChangeSizeEvent ++ [MergeBlockEvent].
Proof.
  unfold mergeHead. rewrite !kinds_app, kinds_deleteEvents by apply mergedSizes_length.
  done.
Qed.

Lemma prefix_mergeHead v m w changed :
  kinds (mergeHead C v m w changed) `prefix_of` mergeOrder (length (Merged m)).
Proof.
  rewrite kinds_mergeHead. unfold mergeOrder.
  exists [ChangeSizeEvent; MergeEndEvent]. simpl. by rewrite <- app_assoc.
Qed.

Lemma prefix_deletes v m w n :
  kinds ((MergeStartEvent, DeltaMergeStart m) ::
         take n (deleteEvents (Merged m) (mergedSizes C v (Merged m) (kv w))))
    `prefix_of` mergeOrder (length (Merged m)).
Proof.
  cbn [kinds map fst]. fold (kinds (take n (deleteEvents (Merged m) (mergedSizes C v (Merged m) (kv w))))).
  rewrite kinds_take, kinds_deleteEvents by apply mergedSizes_length.
  unfold mergeOrder. apply prefix_cons.
  etrans; [apply prefix_take|]. by apply prefix_app_r.
Qed.

Lemma merge_replace_rejected v m w toRLEs changed e lg ev d s lgd :
  GetLabelRLEs C (kv w) v (Target m) = inr toRLEs ->
  commitLog C mergeCommitLog lg ->
  sameMarks d (dirty w) ->
  NotifySubscribers C (events w ++ mergeHead C v m w changed) ChangeSizeEvent
    (replaceSize C v m w (BlockNumVoxels toRLEs)).2 = Some e ->
  ev = events w ++ mergeHead C v m w changed ++
         [replaceSize C v m w (BlockNumVoxels toRLEs)] ->
  lgd = logged w ++ lg ->
  MergeRun C v m w (Returns (Some e)) (mkWorld ev d s lgd).
Proof. intros ? ? ? ? -> ->. by eapply MergeReplaceRejected. Qed.

Lemma merge_reaches_end v m w toRLEs changed lg o ev d s lgd :
  GetLabelRLEs C (kv w) v (Target m) = inr toRLEs ->
  commitLog C mergeCommitLog lg ->
  sameMarks d (dirty w) ->
  o = NotifySubscribers C
        (events w ++ mergeHead C v m w changed ++
           [replaceSize C v m w (BlockNumVoxels toRLEs)])
        MergeEndEvent (DeltaMergeEnd m) ->
  ev = events w ++ mergeHead C v m w changed ++
         [replaceSize C v m w (BlockNumVoxels toRLEs);
          (MergeEndEvent, DeltaMergeEnd m)] ->
  lgd = logged w ++ lg ->
  MergeRun C v m w (Returns o) (mkWorld ev d s lgd).
Proof. intros ? ? ? -> -> ->. by eapply MergeReachesEnd. Qed.

Lemma MergeLabels_run v m w :
  let '(o, w') := MergeLabels C v m w in MergeRun C v m w o w'.
Proof.
  unfold MergeLabels, func. go.
  destruct (SmallDataStore C); go.
  1,2: apply merge_fails_early with (t := []); simpl;
       rewrite ?app_nil_r; auto using sameMarks_refl, prefix_nil.
  destruct (NotifySubscribers C (events w) MergeStartEvent _) eqn:EStart; go.
  { apply merge_fails_early with (t := [(MergeStartEvent, DeltaMergeStart m)]); simpl;
      auto using sameMarks_refl. by apply prefix_cons, prefix_nil. }
  unfold defer. go.
  destruct (GetLabelRLEs C (kv w) v (Target m)) as [e|toRLEs] eqn:ET; go.
  { apply merge_fails_early with (t := [(MergeStartEvent, DeltaMergeStart m)]); simpl;
      auto using RemoveMerge_AddMerge. by apply prefix_cons, prefix_nil. }
  rewrite bind_forRange.
  match goal with |- context [forRange _ _ _ ?w1] =>
    pose proof (mergeLoop_spec C v (Target m) (Merged m) 0 toRLEs ∅ w1) as HL end.
  destruct (forRange (Merged m) _ _ _) as [[[[added to'] changed]|r|p] w2];
    cbn [events dirty kv logged] in HL; [|go|done].
  2:{ destruct HL as ([e ->] & [n He] & Hd & Hl).
      apply merge_fails_early
        with (t := (MergeStartEvent, DeltaMergeStart m) ::
                   take n (deleteEvents (Merged m) (mergedSizes C v (Merged m) (kv w))));
        simpl.
      - by rewrite He, <- app_assoc.
      - done.
      - rewrite Hd. apply RemoveMerge_AddMerge.
      - apply prefix_deletes. }
  destruct HL as (He & Ha & Hd & Hl).
  destruct w2 as [ev2 d2 s2 lg2]; cbn [events dirty kv logged] in *; subst ev2 d2 lg2.
  assert (wrap64 (BlockNumVoxels toRLEs + added) =
          wrap64 (BlockNumVoxels toRLEs + sumZ (mergedSizes C v (Merged m) (kv w)))) as HN.
  { rewrite <- wrap64_add_r, Ha, wrap64_add_r. done. }
  assert (forall tl, ((events w ++ [(MergeStartEvent, DeltaMergeStart m)]) ++
            deleteEvents (Merged m) (mergedSizes C v (Merged m) (kv w))) ++
            (MergeBlockEvent, DeltaMerge m changed) :: tl =
          events w ++ mergeHead C v m w changed ++ tl) as HE.
  { intros tl. unfold mergeHead. by rewrite <- !app_assoc. }
  go. rewrite HN.
  destruct (NotifySubscribers C _ MergeBlockEvent _) eqn:EB; go.
  { apply merge_fails_early with (t := mergeHead C v m w changed); simpl.
    - by rewrite HE, app_nil_r.
    - done.
    - apply RemoveMerge_AddMerge.
    - apply prefix_mergeHead. }
  rewrite bind_forRange.
  match goal with |- context [forRange ?xs ?b ?f ?w1] =>
    pose proof (putLoop_spec C (Target m) to' xs b w1) as HP;
    destruct (forRange xs b f w1) as [[batch|r|p] w3] end; [subst w3|..|done].
  2:{ destruct HP as [[e ->] ->]. go.
      apply merge_fails_early with (t := mergeHead C v m w changed); simpl.
      - by rewrite HE, app_nil_r.
      - done.
      - apply RemoveMerge_AddMerge.
      - apply prefix_mergeHead. }
  go. rewrite !HE, ?app_nil_r. unfold unmark, return_. go_reduce.
  destruct (Commit C batch s2) as [s3 cerr] eqn:EC.
  assert (commitLog C mergeCommitLog
            (match cerr with Some _ => [mergeCommitLog] | None => [] end)) as HC.
  { destruct cerr as [cerr|]; [right|left]; (split; [done|]);
      exists batch, s2; [exists cerr|]; by rewrite EC. }
  destruct cerr as [cerr|]; go.
  - destruct (NotifySubscribers C _ ChangeSizeEvent _) eqn:ER; go.
    + eapply merge_replace_rejected with (lg := [mergeCommitLog]) (changed := changed);
        eauto using RemoveMerge_AddMerge.
      by rewrite <- app_assoc.
    + destruct (NotifySubscribers C _ MergeEndEvent _) eqn:EE; go.
      all: eapply merge_reaches_end with (lg := [mergeCommitLog]) (changed := changed);
        eauto using RemoveMerge_AddMerge.
      all: try (rewrite <- EE; f_equal; by rewrite <- app_assoc).
      all: by rewrite <- !app_assoc.
  - destruct (NotifySubscribers C _ ChangeSizeEvent _) eqn:ER; go.
    + eapply merge_replace_rejected with (lg := []) (changed := changed);
        eauto using RemoveMerge_AddMerge.
      * by rewrite <- app_assoc.
      * by rewrite app_nil_r.
    + destruct (NotifySubscribers C _ MergeEndEvent _) eqn:EE; go.
      all: eapply merge_reaches_end with (lg := []) (changed := changed);
        eauto using RemoveMerge_AddMerge.
      all: try (rewrite <- EE; f_equal; by rewrite <- app_assoc).
      all: try by rewrite <- !app_assoc.
      all: by rewrite app_nil_r.
Qed.

End MergeRuns.

(** ** Every call of SplitLabels ends in one of the ways of [SplitRun] *)

Section SplitRuns.

Context (C : Collaborators).

(** [writeLabelVol] returns, and touches nothing but the store. *)
Lemma writeLabelVol_spec v label blks brles w :
  exists r s, writeLabelVol C v label blks brles w =
                (Returns r, mkWorld (events w) (dirty w) s (logged w)).
Proof.
  unfold writeLabelVol, func. go.
  destruct w as [ev d s lg]. go_reduce.
  destruct (SmallDataStore C); go; eauto.
  rewrite bind_forRange.
  match goal with |- context [forRange ?xs ?b ?f ?w1] =>
    pose proof (putLoop_spec C label brles xs b w1) as HP;
    destruct (forRange xs b f w1) as [[batch|r|p] w3] end; [subst w3|..|done].
  2:{ destruct HP as [_ ->]. eauto. }
  go. destruct (Commit C batch s) as [s' [e|]]; go; unfold return_; eauto.
Qed.

(** The range scan leaves the world alone. *)
Lemma bind_processRange {B} fromLabel splitmap splitblks begIndex endIndex
  (k : option error * list BatchOp -> Go (Z * option error) B) w :
  bind (processRange C fromLabel splitmap splitblks begIndex endIndex) k w =
    match scanChunks C fromLabel splitmap splitblks
            (ProcessRange C (kv w) begIndex endIndex).1 0 [] with
    | Panics p => (Panic p, w)
    | Returns (Some err, _, batch) => k (Some err, batch) w
    | Returns (None, _, batch) => k ((ProcessRange C (kv w) begIndex endIndex).2, batch) w
    end.
Proof.
  unfold bind, processRange.
  destruct (ProcessRange C (kv w) begIndex endIndex) as [chunks storeErr]; simpl.
  by destruct (scanChunks C fromLabel splitmap splitblks chunks 0 [])
    as [[[[e|] pos] batch]|p].
Qed.

Lemma split_fails_early v fromLabel w o t w' :
  failed o ->
  events w' = events w ++ t -> logged w' = logged w ->
  sameMarks (dirty w') (dirty w) ->
  kinds t `prefix_of` splitOrder ->
  SplitRun C v fromLabel w o w'.
Proof.
  destruct w' as [ev d s lg]; simpl. intros Hf -> -> Hd Hp.
  by apply SplitFailsEarly.
Qed.

Lemma split_new_size_rejected v fromLabel w toLabel splitmap size e lg ev d s lgd :
  commitLog C splitCommitLog lg ->
  sameMarks d (dirty w) ->
  NotifySubscribers C (events w ++ splitHead C fromLabel toLabel splitmap)
    ChangeSizeEvent (newSize toLabel size).2 = Some e ->
  ev = events w ++ splitHead C fromLabel toLabel splitmap ++ [newSize toLabel size] ->
  lgd = logged w ++ lg ->
  SplitRun C v fromLabel w (Returns (0, Some e)) (mkWorld ev d s lgd).
Proof. intros ? ? ? -> ->. by eapply SplitNewSizeRejected. Qed.

Lemma split_mod_size_rejected v fromLabel w toLabel splitmap size e lg ev d s lgd :
  commitLog C splitCommitLog lg ->
  sameMarks d (dirty w) ->
  NotifySubscribers C
    (events w ++ splitHead C fromLabel toLabel splitmap ++ [newSize toLabel size])
    ChangeSizeEvent (modSize fromLabel size).2 = Some e ->
  ev = events w ++ splitHead C fromLabel toLabel splitmap ++
         [newSize toLabel size; modSize fromLabel size] ->
  lgd = logged w ++ lg ->
  SplitRun C v fromLabel w (Returns (0, Some e)) (mkWorld ev d s lgd).
Proof. intros ? ? ? -> ->. by eapply SplitModSizeRejected. Qed.

Lemma split_reaches_end v fromLabel w toLabel splitmap size lg o ev d s lgd :
  commitLog C splitCommitLog lg ->
  sameMarks d (dirty w) ->
  o = afterNotify toLabel
        (NotifySubscribers C
           (events w ++ splitHead C fromLabel toLabel splitmap ++
              [newSize toLabel size; modSize fromLabel size])
           SplitEndEvent (DeltaSplitEnd fromLabel toLabel)) ->
  ev = events w ++ splitHead C fromLabel toLabel splitmap ++
         [newSize toLabel size; modSize fromLabel size;
          (SplitEndEvent, DeltaSplitEnd fromLabel toLabel)] ->
  lgd = logged w ++ lg ->
  SplitRun C v fromLabel w (Returns o) (mkWorld ev d s lgd).
Proof. intros ? ? -> -> ->. by eapply SplitReachesEnd. Qed.

Ltac split_early :=
  eapply split_fails_early;
  [ exact I
  | cbn [events]; rewrite <- ?app_assoc;
    first [ reflexivity | symmetry; apply app_nil_r ]
  | reflexivity
  | first [ apply sameMarks_refl | apply Decr_Incr ]
  | by eexists ].

Ltac split_events :=
  unfold splitHead, newSize, modSize, afterNotify in *;
  cbn [events dirty kv logged fst snd] in *;
  rewrite <- ?app_assoc in *; cbn [app] in *;
  repeat match goal with H : NotifySubscribers _ _ _ _ = _ |- _ => rewrite H end;
  rewrite ?app_nil_r;
  try done.

Lemma SplitLabels_run v fromLabel r w :
  let '(o, w') := SplitLabels C v fromLabel r w in SplitRun C v fromLabel w o w'.
Proof.
  unfold SplitLabels, func. go.
  destruct (SmallDataStore C); go; try split_early.
  unfold defer, unmark.
  destruct (NewLabel C v) as [toLabel nerr]; destruct nerr as [e|]; go; try split_early.
  destruct (NotifySubscribers C (events w) SplitStartEvent _) eqn:EStart; go;
    try split_early.
  destruct (readFull r 12) as [e|[header r1]]; go; try split_early.
  destruct (decide (nth 0 header 0 = EncodingBinary C)) as [Htag|Htag]; go;
    try split_early.
  destruct (readUint32 r1) as [e|[numSpans r2]]; go; try split_early.
  destruct (UnmarshalBinaryReader C r2 numSpans) as [e|split]; go; try split_early.
  destruct (Partition C split) as [e|splitmap]; go; try split_early.
  destruct (NotifySubscribers C _ SplitLabelEvent _) eqn:ELabel; go; try split_early.
  match goal with |- context [writeLabelVol C v toLabel ?blks splitmap ?w1] =>
    destruct (writeLabelVol_spec v toLabel blks splitmap w1) as (rw & s1 & ->) end.
  go. destruct rw as [e|]; go; try split_early.
  unfold index.
  destruct (SortedKeys C splitmap !! 0%nat) as [first|] eqn:E0; go; try split_early.
  destruct (BlockZ C first) as [e|minZ]; go; try split_early.
  destruct (SortedKeys C splitmap !! (length (SortedKeys C splitmap) - 1)%nat)
    as [last|] eqn:E1; go; try split_early.
  destruct (BlockZ C last) as [e|maxZ]; go; try split_early.
  rewrite bind_processRange. go_reduce.
  destruct (scanChunks C fromLabel splitmap _ _ 0 []) as [[[serr pos] batch]|p];
    go; try split_early.
  destruct serr as [e|]; go; try split_early.
  destruct (ProcessRange C s1 _ _).2 as [e|]; go; try split_early.
  unfold return_.
  destruct (Commit C batch s1) as [s2 cerr] eqn:EC.
  assert (commitLog C splitCommitLog
            (match cerr with Some _ => [splitCommitLog] | None => [] end)) as HC.
  { destruct cerr as [cerr|]; [right|left]; (split; [done|]);
      exists batch, s1; [exists cerr|]; by rewrite EC. }
  destruct cerr as [cerr|]; go.
  - destruct (NotifySubscribers C _ ChangeSizeEvent (DeltaNewSize _ _)) eqn:EN; go.
    { eapply split_new_size_rejected with (lg := [splitCommitLog]) (splitmap := splitmap);
        eauto using Decr_Incr; split_events. }
    destruct (NotifySubscribers C _ ChangeSizeEvent (DeltaModSize _ _)) eqn:EM; go.
    { eapply split_mod_size_rejected with (lg := [splitCommitLog]) (splitmap := splitmap);
        eauto using Decr_Incr; split_events. }
    destruct (NotifySubscribers C _ SplitEndEvent _) eqn:EE; go.
    all: eapply split_reaches_end with (lg := [splitCommitLog]) (splitmap := splitmap)
           (size := NumVoxels split); eauto using Decr_Incr; split_events.
  - destruct (NotifySubscribers C _ ChangeSizeEvent (DeltaNewSize _ _)) eqn:EN; go.
    { eapply split_new_size_rejected with (lg := []) (splitmap := splitmap);
        eauto using Decr_Incr; split_events. }
    destruct (NotifySubscribers C _ ChangeSizeEvent (DeltaModSize _ _)) eqn:EM; go.
    { eapply split_mod_size_rejected with (lg := []) (splitmap := splitmap);
        eauto using Decr_Incr; split_events. }
    destruct (NotifySubscribers C _ SplitEndEvent _) eqn:EE; go.
    all: eapply split_reaches_end with (lg := []) (splitmap := splitmap)
           (size := NumVoxels split); eauto using Decr_Incr; split_events.
Qed.

End SplitRuns.

(** ** Properties of whole calls *)

Section Calls.

Context (C : Collaborators).

Lemma MergeLabels_inv v m w :
  MergeRun C v m w (MergeLabels C v m w).1 (MergeLabels C v m w).2.
Proof.
  pose proof (MergeLabels_run C v m w) as H.
  by destruct (MergeLabels C v m w).
Qed.

Lemma SplitLabels_inv v fromLabel r w :
  SplitRun C v fromLabel w (SplitLabels C v fromLabel r w).1
                           (SplitLabels C v fromLabel r w).2.
Proof.
  pose proof (SplitLabels_run C v fromLabel r w) as H.
  by destruct (SplitLabels C v fromLabel r w).
Qed.






End Calls.

(** C5.  Whatever way a call of [MergeLabels] or [SplitLabels] ends (nil,
    an error, a panic), the dirty registry holds every label as often after
    the call as before it: each mark the call made has been released. *)
Theorem dirty_marks_released (C : Collaborators) (v : Z) (m : MergeOp)
  (fromLabel : Z) (r : list Z) (w : world) :
  sameMarks (dirty (MergeLabels C v m w).2) (dirty w) /\
  sameMarks (dirty (SplitLabels C v fromLabel r w).2) (dirty w).
Proof.
  split.
  - by destruct (MergeLabels_inv C v m w).
  - by destruct (SplitLabels_inv C v fromLabel r w).
Qed.


(** C7.  When [MergeLabels] returns nil, its notifications end with the
    size-replace one followed by MergeEnd, and the size-replace message
    carries the target label, as old size the voxel count of the target's
    runs as read from the store the call started with, and as new size that
    count plus the counts read for the merged labels (the same counts their
    size-deletion messages carry), in uint64 arithmetic. *)
Theorem replace_size_is_old_plus_merged (C : Collaborators) (v : Z) (m : MergeOp)
  (w : world) :
  (MergeLabels C v m w).1 = Returns None ->
  exists toRLEs changed,
    GetLabelRLEs C (kv w) v (Target m) = inr toRLEs /\
    events (MergeLabels C v m w).2 =
      events w ++
      [(MergeStartEvent, DeltaMergeStart m)] ++
      deleteEvents (Merged m) (mergedSizes C v (Merged m) (kv w)) ++
      [(MergeBlockEvent, DeltaMerge m changed);
       (ChangeSizeEvent,
        DeltaReplaceSize (Target m) (BlockNumVoxels toRLEs)
          (wrap64 (BlockNumVoxels toRLEs +
                   sumZ (mergedSizes C v (Merged m) (kv w)))));
       (MergeEndEvent, DeltaMergeEnd m)].
Proof.
  intros Hnil.
  destruct (MergeLabels_inv C v m w)
    as [e t d s Hp Hd | toRLEs changed e lg d s HG Hlg Hd HN | toRLEs changed lg d s HG Hlg Hd];
    try done.
  exists toRLEs, changed. split; [done|].
  cbn [events]. unfold mergeHead, replaceSize. by rewrite <- !app_assoc.
Qed.

Lemma wrap64_nonneg z : 0 <= wrap64 z.
Proof. apply Z.mod_pos_bound. lia. Qed.

Lemma mergedSizes_nonneg (C : Collaborators) (v : Z) (ls : list Z) : forall s,
  0 <= sumZ (mergedSizes C v ls s).
Proof.
  induction ls as [|l ls IH]; intros s; simpl; [lia|].
  assert (0 <= voxelsRead C s v l)
    by (unfold voxelsRead; destruct (GetLabelRLEs C s v l); [lia|apply wrap64_nonneg]).
  specialize (IH (deleteLabel C s l)). lia.
Qed.

(** The new size is the plain sum whenever that sum fits in a uint64. *)
Lemma new_size_exact (C : Collaborators) (v : Z) (ls : list Z) (s : kvstore)
  (toRLEs : BlockRLEs) :
  BlockNumVoxels toRLEs + sumZ (mergedSizes C v ls s) < 2 ^ 64 ->
  wrap64 (BlockNumVoxels toRLEs + sumZ (mergedSizes C v ls s)) =
    BlockNumVoxels toRLEs + sumZ (mergedSizes C v ls s).
Proof.
  intros Hfit. pose proof (mergedSizes_nonneg C v ls s).
  assert (0 <= BlockNumVoxels toRLEs) by apply wrap64_nonneg.
  apply Z.mod_small. lia.
Qed.

(** ** A failed commit of the final batch *)

Section CommitFailure.

Context (C : Collaborators).






End CommitFailure.


(** ** The encoding tag of the split payload *)

Lemma readFull_header (header rest : list Z) :
  length header = 12%nat -> readFull (header ++ rest) 12 = inr (header, rest).
Proof.
  intros Hlen. unfold readFull.
  rewrite decide_True by (rewrite length_app; lia).
  by rewrite <- Hlen, take_app_length, drop_app_length.
Qed.

(** C8.  For a payload whose 12-byte header starts with a byte other than
    the binary-sparse-volume tag, [SplitLabels] returns an error and the
    block entries of the store are what they were before the call. *)
Theorem bad_encoding_rejected_before_writes (C : Collaborators) (v fromLabel : Z)
  (header rest : list Z) (w : world) :
  length header = 12%nat ->
  nth 0 header 0 <> EncodingBinary C ->
  (exists label e,
     (SplitLabels C v fromLabel (header ++ rest) w).1 = Returns (label, Some e)) /\
  kv (SplitLabels C v fromLabel (header ++ rest) w).2 = kv w.
Proof.
  intros Hlen Htag. unfold SplitLabels, func. go.
  destruct (SmallDataStore C); go; [eauto..|].
  unfold defer, unmark.
  destruct (NewLabel C v) as [toLabel nerr]; destruct nerr as [e|]; go; [eauto|].
  destruct (NotifySubscribers C (events w) SplitStartEvent _); go; [eauto|].
  rewrite readFull_header by done. go.
  rewrite decide_False by done. go. eauto.
Qed.

(** ** The chunk processor of the split scan *)

Section Scan.

Context (C : Collaborators).


(** The processor reads [splitblks[pos]] before it checks [pos]: once the
    cursor is past the end, every chunk whose key decodes panics. *)
Lemma splitChunk_past_end fromLabel splitmap splitblks pos batch chunk label origblk :
  DecodeKey C (K chunk) = inr (label, origblk) ->
  (length splitblks <= pos)%nat ->
  splitChunk C fromLabel splitmap splitblks pos batch chunk = Panics IndexOutOfRange.
Proof.
  intros HK Hpos. unfold splitChunk. rewrite HK.
  by rewrite (lookup_ge_None_2 splitblks pos Hpos).
Qed.

(** The cursor moves exactly when the original block is ahead of the
    split block under the cursor, and then by one. *)
Lemma splitChunk_cursor fromLabel splitmap splitblks pos batch chunk
    label origblk splitblk err pos' batch' :
  DecodeKey C (K chunk) = inr (label, origblk) ->
  splitblks !! pos = Some splitblk ->
  splitChunk C fromLabel splitmap splitblks pos batch chunk = Returns (err, pos', batch') ->
  (pos' = pos /\ (String.ltb origblk splitblk = true \/ origblk = splitblk)) \/
  (pos' = S pos /\ batch' = batch /\ err = None /\
   String.ltb origblk splitblk = false /\ origblk <> splitblk).
Proof.
  intros HK Hpos. unfold splitChunk. rewrite HK, Hpos.
  destruct (String.ltb origblk splitblk) eqn:Hlt; simpl.
  { intros [= <- <- <-]. auto. }
  rewrite bool_decide_eq_false_2 by (apply lookup_lt_Some in Hpos; lia).
  destruct (String.eqb_spec origblk splitblk) as [->|Hne].
  - destruct (UnmarshalBinary C (V chunk)) as [e|rles]; [intros [= <- <- <-]; auto|].
    destruct (diffBlock _ rles) as [[[modified dup] [e|]]|p];
      [intros [= <- <- <-]; auto| |done].
    destruct dup; [intros [= <- <- <-]; auto|].
    destruct (MarshalBinary C modified); intros [= <- <- <-]; auto.
  - intros [= <- <- <-]. right. auto.
Qed.

End Scan.


(** ** The statements on concrete calls *)

Section Concrete.
Import MemStore Scenario.

(** The end-to-end merge of the specification: sizes 5 and 6 give 11. *)
Example merge_sizes :
  (MergeLabels mem 0 mergeOp mergeWorld).1 = Returns None /\
  kinds (events (MergeLabels mem 0 mergeOp mergeWorld).2) = mergeOrder 1 /\
  events (MergeLabels mem 0 mergeOp mergeWorld).2 !! 3%nat =
    Some (ChangeSizeEvent, DeltaReplaceSize 1 5 11).
Proof. vm_compute. done. Qed.

(** The end-to-end split of the specification (voxels 2..4 out of 0..9)
    does not get through [diffBlock]. *)
Example split_of_a_sub_run :
  (SplitLabels mem 0 1 splitPayload splitWorld).1 = Panics NilDereference.
Proof. vm_compute. done. Qed.

End Concrete.



(** What the match of the witness gives, and the two matches that queue:
    a stored block without runs is deleted, a split block without runs has
    the stored runs rewritten by [diffBlock]. *)
Example scan_matches :
  splitChunk MemStore.mem 1 {[MemStore.blk 0 0 0 := [mkRLE 2 0 0 3]]}
    [MemStore.blk 0 0 0] 0 []
    (mkChunk (MemStore.newIndex 1 (MemStore.blk 0 0 0)) [0; 0; 0; 10])
    = Panics NilDereference /\
  splitChunk MemStore.mem 1 {[MemStore.blk 0 0 0 := [mkRLE 0 0 0 10]]}
    [MemStore.blk 0 0 0] 0 []
    (mkChunk (MemStore.newIndex 1 (MemStore.blk 0 0 0)) [0; 0; 0; 10])
    = Panics NilDereference /\
  splitChunk MemStore.mem 1 {[MemStore.blk 0 0 0 := [mkRLE 2 0 0 3]]}
    [MemStore.blk 0 0 0] 0 []
    (mkChunk (MemStore.newIndex 1 (MemStore.blk 0 0 0)) [])
    = Returns (None, 0%nat, [BatchDelete (MemStore.newIndex 1 (MemStore.blk 0 0 0))]) /\
  splitChunk MemStore.mem 1 {[MemStore.blk 0 0 0 := []]}
    [MemStore.blk 0 0 0] 0 []
    (mkChunk (MemStore.newIndex 1 (MemStore.blk 0 0 0)) [0; 0; 0; 10])
    = Returns (None, 0%nat,
               [BatchPut (MemStore.newIndex 1 (MemStore.blk 0 0 0)) [0; 0; 0; 10]]).
Proof. vm_compute. done. Qed.



(** The statement of [replace_size_is_old_plus_merged] on the merge of
    label 2 into label 1. *)
Lemma replace_size_is_old_plus_merged_witness :
  exists toRLEs changed,
    GetLabelRLEs MemStore.mem (kv Scenario.mergeWorld) 0 (Target Scenario.mergeOp)
      = inr toRLEs /\
    events (MergeLabels MemStore.mem 0 Scenario.mergeOp Scenario.mergeWorld).2 =
      events Scenario.mergeWorld ++
      [(MergeStartEvent, DeltaMergeStart Scenario.mergeOp)] ++
      deleteEvents (Merged Scenario.mergeOp)
        (mergedSizes MemStore.mem 0 (Merged Scenario.mergeOp) (kv Scenario.mergeWorld)) ++
      [(MergeBlockEvent, DeltaMerge Scenario.mergeOp changed);
       (ChangeSizeEvent,
        DeltaReplaceSize (Target Scenario.mergeOp) (BlockNumVoxels toRLEs)
          (wrap64 (BlockNumVoxels toRLEs +
                   sumZ (mergedSizes MemStore.mem 0 (Merged Scenario.mergeOp)
                           (kv Scenario.mergeWorld)))));
       (MergeEndEvent, DeltaMergeEnd Scenario.mergeOp)].
Proof.
  apply (replace_size_is_old_plus_merged MemStore.mem 0 Scenario.mergeOp Scenario.mergeWorld).
  vm_compute. reflexivity.
Defined.

(** The statement of [bad_encoding_rejected_before_writes] on a payload
    whose header starts with 1 while the binary tag is 0. *)
Lemma bad_encoding_rejected_witness :
  (exists label e,
     (SplitLabels MemStore.mem 0 1 (Scenario.badHeader ++ [7; 7]) Scenario.splitWorld).1
       = Returns (label, Some e)) /\
  kv (SplitLabels MemStore.mem 0 1 (Scenario.badHeader ++ [7; 7]) Scenario.splitWorld).2
    = kv Scenario.splitWorld.
Proof.
  apply (bad_encoding_rejected_before_writes MemStore.mem 0 1 Scenario.badHeader [7; 7]
           Scenario.splitWorld).
  - reflexivity.
  - simpl. lia.
Defined.

(** C9.  [SplitLabels] indexes [splitblks] out of range: at [splitblks[0]]
    for a payload with the binary tag and no run, and at [splitblks[pos]] in
    the chunk processor, once the cursor has moved past the only split block
    and the scan hands over another block of the label. *)
Theorem split_indexes_out_of_range :
  (SplitLabels MemStore.mem 0 1 Scenario.emptyPayload Scenario.splitWorld).1
    = Panics IndexOutOfRange /\
  (SplitLabels MemStore.mem 0 1 Scenario.splitPayload Scenario.farWorld).1
    = Panics IndexOutOfRange.
Proof. vm_compute. done. Qed.

(** The statement of [diffBlock_inputs_unchanged] on two overlapping slices
    of one unsorted array. *)
Lemma diffBlock_inputs_unchanged_witness :
  Mem.read (Mem.diffBlock Scenario.heap1 Scenario.splitSlice Scenario.origSlice).2
    Scenario.splitSlice = Mem.read Scenario.heap1 Scenario.splitSlice /\
  Mem.read (Mem.diffBlock Scenario.heap1 Scenario.splitSlice Scenario.origSlice).2
    Scenario.origSlice = Mem.read Scenario.heap1 Scenario.origSlice.
Proof.
  apply (diffBlock_inputs_unchanged Scenario.heap1 Scenario.splitSlice Scenario.origSlice).
  - vm_compute. eauto.
  - vm_compute. eauto.
Defined.

(** * Further properties of the code *)

(** ** diffBlock and the chunk processor on edge inputs *)





Section ScanFacts.

Context (C : Collaborators).

(** One run of the chunk processor leaves the cursor where it is or moves
    it by one, and queues at most one operation, on a key of [fromLabel]. *)
Lemma splitChunk_step fromLabel splitmap splitblks pos batch chunk err pos' batch' :
  splitChunk C fromLabel splitmap splitblks pos batch chunk = Returns (err, pos', batch') ->
  (pos <= pos' <= S pos)%nat /\
  (batch' = batch \/
   exists op blk, batch' = batch ++ [op] /\ opKey op = NewIndex C fromLabel blk).
Proof.
  unfold splitChunk.
  destruct (DecodeKey C (K chunk)) as [e|[label origblk]];
    [intros [= <- <- <-]; split; [lia|auto]|].
  destruct (splitblks !! pos) as [splitblk|]; [|done].
  destruct (_ || _); [intros [= <- <- <-]; split; [lia|auto]|].
  destruct (String.eqb origblk splitblk); [|intros [= <- <- <-]; split; [lia|auto]].
  destruct (UnmarshalBinary C (V chunk)) as [e|rles];
    [intros [= <- <- <-]; split; [lia|auto]|].
  destruct (diffBlock _ rles) as [[[modified dup] [e|]]|p];
    [intros [= <- <- <-]; split; [lia|auto]| |done].
  destruct dup.
  - intros [= <- <- <-]. split; [lia|]. right. by eexists _, _.
  - destruct (MarshalBinary C modified); intros [= <- <- <-]; (split; [lia|]); auto.
    right. by eexists _, _.
Qed.

End ScanFacts.

(** X2.  Over a whole range scan the cursor never moves back and moves at
    most one block per chunk, what was queued before stays queued in the same
    order, at most one operation is queued per chunk, and every operation
    queued acts on a key of [fromLabel]. *)
Theorem scanChunks_invariants (C : Collaborators) (fromLabel : Z)
  (splitmap : BlockRLEs) (splitblks : list string) (chunks : list Chunk)
  (pos : nat) (batch : list BatchOp)
  (err : option error) (pos' : nat) (batch' : list BatchOp) :
  scanChunks C fromLabel splitmap splitblks chunks pos batch = Returns (err, pos', batch') ->
  (pos <= pos' <= pos + length chunks)%nat /\
  exists queued,
    batch' = batch ++ queued /\
    (length queued <= length chunks)%nat /\
    Forall (fun op => exists blk, opKey op = NewIndex C fromLabel blk) queued.
Proof.
  revert pos batch. induction chunks as [|chunk rest IH]; intros pos batch; simpl.
  - intros [= <- <- <-]. split; [lia|]. exists []. rewrite app_nil_r.
    split; [done|]. split; [done|constructor].
  - destruct (splitChunk C fromLabel splitmap splitblks pos batch chunk)
      as [[[e1 pos1] batch1]|p] eqn:Hstep; [|done].
    apply splitChunk_step in Hstep as [Hpos Hq].
    assert (exists q1, batch1 = batch ++ q1 /\ (length q1 <= 1)%nat /\
              Forall (fun op => exists blk, opKey op = NewIndex C fromLabel blk) q1)
      as (q1 & -> & Hl1 & Hf1).
    { destruct Hq as [->|(op & blk & -> & Hop)].
      - exists []. rewrite app_nil_r. split; [done|]. split; [simpl; lia|done].
      - exists [op]. split; [done|]. split; [simpl; lia|]. constructor; eauto. }
    destruct e1 as [e1|].
    + intros [= <- <- <-]. split; [lia|]. exists q1. split; [done|]. split; [lia|done].
    + intros Hrest. apply IH in Hrest as [Hpos' (q2 & -> & Hl2 & Hf2)].
      split; [lia|]. exists (q1 ++ q2). rewrite app_assoc. split; [done|].
      split; [rewrite length_app; lia|]. by apply Forall_app.
Qed.

(** ** Folding the blocks of a merged label into the target *)

Section MergeBlocksFacts.

Context (C : Collaborators).

Lemma mergeBlocks_fold (l : list (string * list RLE)) :
  NoDup l.*1 ->
  forall (to : BlockRLEs) (changed : gset string),
    let r := foldl (addBlock C) (to, changed) l in
    r.2 = changed ∪ list_to_set l.*1 /\
    forall b, r.1 !! b =
      match (list_to_map l : BlockRLEs) !! b with
      | Some fromRLEs =>
          Some (match to !! b with
                | Some toRLEs => RLEsAdd C toRLEs fromRLEs
                | None => fromRLEs
                end)
      | None => to !! b
      end.
Proof.
  induction l as [|[k fr] l IH]; intros Hnd to changed; simpl.
  - split; [by rewrite union_empty_r_L|done].
  - apply NoDup_cons in Hnd as [Hk Hnd].
    specialize (IH Hnd (<[k := match to !! k with
                                | Some toRLEs => RLEsAdd C toRLEs fr
                                | None => fr
                                end]> to) ({[k]} ∪ changed)).
    simpl in IH. destruct IH as [IH2 IH1]. unfold addBlock at 2. simpl.
    split; [by rewrite IH2, (union_assoc_L changed), (union_comm_L changed)|].
    intros b. rewrite IH1. destruct (decide (b = k)) as [->|Hne].
    + rewrite lookup_insert_eq.
      rewrite (not_elem_of_list_to_map_1 l k) by done.
      by rewrite lookup_insert_eq.
    + by rewrite !(lookup_insert_ne _ k b) by done.
Qed.

Lemma mergeBlocks_addBlock (to : BlockRLEs) (ch : gset string) (from : BlockRLEs) :
  mergeBlocks C to ch from = foldl (addBlock C) (to, ch) (map_to_list from).
Proof.
  unfold mergeBlocks. generalize (to, ch).
  induction (map_to_list from) as [|[k fr] l IH]; intros [to' ch']; [done|].
  simpl. by rewrite IH.
Qed.

End MergeBlocksFacts.

(** X3.  Folding the blocks of a merged-from label into the target's
    blocks marks exactly that label's blocks as changed (besides those marked
    before); a block the label does not occupy keeps the target's runs, a
    block only the label occupies gets the label's runs as they are, and a
    block both occupy gets [Add] of the two run lists. *)
Theorem mergeBlocks_blocks (C : Collaborators) (toLabelRLEs : BlockRLEs)
  (blocksChanged : gset string) (fromLabelRLEs : BlockRLEs) :
  (mergeBlocks C toLabelRLEs blocksChanged fromLabelRLEs).2
    = blocksChanged ∪ dom fromLabelRLEs /\
  forall b,
    (mergeBlocks C toLabelRLEs blocksChanged fromLabelRLEs).1 !! b =
      match fromLabelRLEs !! b with
      | Some fromRLEs =>
          Some (match toLabelRLEs !! b with
                | Some toRLEs => RLEsAdd C toRLEs fromRLEs
                | None => fromRLEs
                end)
      | None => toLabelRLEs !! b
      end.
Proof.
  pose proof (mergeBlocks_fold C (map_to_list fromLabelRLEs)
                (NoDup_fst_map_to_list fromLabelRLEs) toLabelRLEs blocksChanged) as H.
  simpl in H. rewrite list_to_map_to_list in H.
  assert (mergeBlocks C toLabelRLEs blocksChanged fromLabelRLEs =
          foldl (addBlock C) (toLabelRLEs, blocksChanged) (map_to_list fromLabelRLEs)) as ->.
  { apply mergeBlocks_addBlock. }
  destruct H as [H2 H1]. split; [|done].
  rewrite H2. f_equal. apply leibniz_equiv. symmetry. apply dom_alt.
Qed.

(** ** Writes of whole calls *)

Section Writes.

Context (C : Collaborators).

(** The loop that queues the puts: one put per block, in order; or an early
    return with an error, the world untouched either way. *)
Lemma putLoop_batch label brles blks : forall batch w,
  match forRange blks batch (putBlock C label brles) w with
  | (Next batch', w') =>
      w' = w /\ exists puts, batch' = batch ++ puts /\
                             Forall2 (isPutOf C label brles) blks puts
  | (Return r, w') => is_Some r /\ w' = w
  | (Panic _, _) => False
  end.
Proof.
  induction blks as [|b blks IH]; intros batch w.
  - simpl. split; [done|]. exists []. by rewrite app_nil_r.
  - rewrite forRange_cons. unfold putBlock at 1. go.
    destruct (MarshalBinary C _) as [e|bytes] eqn:EM; [eauto|]. go.
    specialize (IH (batch ++ [BatchPut (NewIndex C label b) bytes]) w).
    destruct (forRange blks _ _ w) as [[batch'|r|p] w']; [|done..].
    destruct IH as [-> (puts & -> & Hputs)]. split; [done|].
    exists (BatchPut (NewIndex C label b) bytes :: puts).
    rewrite <- app_assoc. split; [done|]. constructor; [|done].
    by exists bytes.
Qed.

Lemma mergeLoop_kv v toLabel ls : forall st w,
  match forRange ls st (mergeOne C v toLabel) w with
  | (Next _, w') => kv w' = foldl (deleteLabel C) (kv w) ls
  | _ => True
  end.
Proof.
  induction ls as [|label rest IH]; intros [[added to] changed] w; [done|].
  rewrite forRange_cons. unfold mergeOne at 1. go.
  destruct (GetLabelRLEs C (kv w) v label) as [e|fromRLEs]; [done|]. go.
  destruct (NotifySubscribers C (events w) ChangeSizeEvent _); [done|].
  destruct (mergeBlocks C to changed fromRLEs) as [to' changed'].
  go. fold (deleteLabel C (kv w) label).
  destruct (DeleteRange C (kv w) _ _).2; [done|].
  match goal with |- context [forRange rest ?st _ ?w1] => specialize (IH st w1) end.
  by destruct (forRange rest _ _ _) as [[?|?|?] ?].
Qed.

End Writes.

(** X4.  [writeLabelVol] writes all or nothing: either it returns an error
    and leaves the world as it was (no batch-capable store, or a block whose
    runs do not serialize - what was queued before is dropped), or it commits
    in one batch exactly one put per block of [blks], in order, under the key
    of (label, block), and returns the commit's error, if any. *)
Theorem writeLabelVol_all_or_nothing (C : Collaborators) (v label : Z)
  (blks : list string) (brles : BlockRLEs) (w : world) :
  ((exists e, (writeLabelVol C v label blks brles w).1 = Returns (Some e)) /\
   (writeLabelVol C v label blks brles w).2 = w) \/
  (exists puts,
     Forall2 (isPutOf C label brles) blks puts /\
     (writeLabelVol C v label blks brles w).2 =
       mkWorld (events w) (dirty w) (Commit C puts (kv w)).1 (logged w) /\
     (writeLabelVol C v label blks brles w).1 =
       Returns (match (Commit C puts (kv w)).2 with
                | Some e => Some (ErrorfWrap "Error on updating RLEs for label %d: %s\n" e)
                | None => None
                end)).
Proof.
  unfold writeLabelVol, func. go.
  destruct (SmallDataStore C); go; [left; eauto..|].
  rewrite bind_forRange.
  pose proof (putLoop_batch C label brles blks [] w) as HP.
  destruct (forRange blks [] _ w) as [[batch|r|p] w']; [|go|done].
  - destruct HP as [-> (puts & -> & Hputs)]. go. right. exists puts.
    split; [done|].
    cbn [app]. by destruct (Commit C puts (kv w)) as [s [e|]].
  - destruct HP as [[e ->] ->]. left. eauto.
Qed.

(** X5.  Without a batch-capable store, [MergeLabels], [SplitLabels] and
    [writeLabelVol] return an error at once: nothing is notified, marked,
    logged or written. *)
Theorem no_batch_store_fails_first (C : Collaborators) (v : Z) (m : MergeOp)
  (fromLabel : Z) (r : list Z) (blks : list string) (brles : BlockRLEs) (w : world) :
  SmallDataStore C <> StoreBatcher ->
  (exists e, MergeLabels C v m w = (Returns (Some e), w)) /\
  (exists e, SplitLabels C v fromLabel r w = (Returns (0, Some e), w)) /\
  (exists e, writeLabelVol C v fromLabel blks brles w = (Returns (Some e), w)).
Proof.
  intros Hs. unfold MergeLabels, SplitLabels, writeLabelVol, func. go.
  destruct (SmallDataStore C); go; [repeat split; eauto..|done].
Qed.

(** X6.  A payload of fewer than 16 bytes (a truncated header or run count)
    makes [SplitLabels] return an error; the block entries of the store are
    untouched, the mark on [fromLabel] is released, and at most the
    SplitStart notification has been made. *)
Theorem truncated_payload_rejected (C : Collaborators) (v fromLabel : Z)
  (r : list Z) (w : world) :
  (length r < 16)%nat ->
  (exists label e, (SplitLabels C v fromLabel r w).1 = Returns (label, Some e)) /\
  kv (SplitLabels C v fromLabel r w).2 = kv w /\
  sameMarks (dirty (SplitLabels C v fromLabel r w).2) (dirty w) /\
  (events (SplitLabels C v fromLabel r w).2 = events w \/
   exists toLabel,
     events (SplitLabels C v fromLabel r w).2 =
       events w ++ [(SplitStartEvent, DeltaSplitStart fromLabel toLabel)]).
Proof.
  intros Hlen. unfold SplitLabels, func. go.
  assert (forall d, d = dirty w \/ d = DirtyCache.Decr v fromLabel (DirtyCache.Incr v fromLabel (dirty w)) ->
            sameMarks d (dirty w)) as Hd.
  { intros d [->| ->]; [apply sameMarks_refl|apply Decr_Incr]. }
  destruct (SmallDataStore C); go;
    [split; [eauto|]; split; [done|]; split; [apply Hd; auto|by left]..|].
  unfold defer, unmark.
  destruct (NewLabel C v) as [toLabel nerr]; destruct nerr as [e|]; go.
  { split; [eauto|]. split; [done|]. split; [apply Hd; auto|by left]. }
  destruct (NotifySubscribers C (events w) SplitStartEvent _); go.
  { split; [eauto|]. split; [done|]. split; [apply Hd; auto|eauto]. }
  destruct (decide (12 <= length r)%nat) as [H12|H12].
  2:{ assert (exists e, readFull r 12 = inl e) as [e0 ->].
      { unfold readFull. rewrite decide_False by done. destruct r; eauto. }
      go. split; [eauto|]. split; [done|]. split; [apply Hd; auto|eauto]. }
  assert (readFull r 12 = inr (take 12 r, drop 12 r)) as ->.
  { unfold readFull. by rewrite decide_True. }
  go.
  destruct (decide (nth 0 (take 12 r) 0 = EncodingBinary C)); go.
  2:{ split; [eauto|]. split; [done|]. split; [apply Hd; auto|eauto]. }
  assert (exists e, readUint32 (drop 12 r) = inl e) as [e0 ->].
  { unfold readUint32, readFull.
    rewrite decide_False by (rewrite length_drop; lia). destruct (drop 12 r); eauto. }
  go. split; [eauto|]. split; [done|]. split; [apply Hd; auto|eauto].
Qed.

(** The store on the successful exit of [MergeLabels]. *)
Lemma MergeLabels_store (C : Collaborators) (v : Z) (m : MergeOp) (w : world) :
  match MergeLabels C v m w with
  | (Returns None, w') =>
      exists batch,
        Forall (fun op => exists blk bytes,
                  op = BatchPut (NewIndex C (Target m) blk) bytes) batch /\
        kv w' = (Commit C batch (foldl (deleteLabel C) (kv w) (Merged m))).1
  | _ => True
  end.
Proof.
  unfold MergeLabels, func. go.
  destruct (SmallDataStore C); go; [done..|].
  destruct (NotifySubscribers C (events w) MergeStartEvent _); go; [done|].
  unfold defer. go.
  destruct (GetLabelRLEs C (kv w) v (Target m)) as [e|toRLEs]; go; [done|].
  rewrite bind_forRange.
  match goal with |- context [forRange _ ?st _ ?w1] =>
    pose proof (mergeLoop_kv C v (Target m) (Merged m) st w1) as HK;
    pose proof (mergeLoop_spec C v (Target m) (Merged m) 0 toRLEs ∅ w1) as HL end.
  destruct (forRange (Merged m) _ _ _) as [[[[added to'] changed]|r|p] w2];
    cbn [events dirty kv logged] in *; [|go|done].
  2:{ by destruct HL as ([e ->] & _). }
  clear HL. destruct w2 as [ev2 d2 s2 lg2]; cbn [events dirty kv logged] in *. go.
  destruct (NotifySubscribers C _ MergeBlockEvent _); go; [done|].
  rewrite bind_forRange.
  match goal with |- context [forRange ?xs ?b ?f ?w1] =>
    pose proof (putLoop_batch C (Target m) to' xs b w1) as HP;
    destruct (forRange xs b f w1) as [[batch|r|p] w3] end; [|go|done].
  2:{ by destruct HP as [[e ->] ->]. }
  destruct HP as [-> (puts & -> & Hputs)]. cbn [app]. go.
  assert (Forall (fun op => exists blk bytes,
            op = BatchPut (NewIndex C (Target m) blk) bytes) puts) as Hall.
  { clear -Hputs. induction Hputs as [|b op ? ? (bytes & _ & ->)]; constructor; eauto. }
  unfold unmark, return_. go_reduce.
  destruct (Commit C puts s2) as [s3 cerr] eqn:EC.
  destruct cerr; go;
    (destruct (NotifySubscribers C _ ChangeSizeEvent _); go; [done|]);
    (destruct (NotifySubscribers C _ MergeEndEvent _); go; [done|]);
    exists puts; (split; [done|]); by rewrite <- HK, EC.
Qed.

(** X7.  When [MergeLabels] returns nil, the store it leaves is the one it
    started with, with the key range of each merged label deleted in turn,
    and then one batch committed that holds only puts under keys of the
    target label. *)
Theorem merge_deletes_sources_and_puts_target (C : Collaborators) (v : Z)
  (m : MergeOp) (w : world) :
  (MergeLabels C v m w).1 = Returns None ->
  exists batch,
    Forall (fun op => exists blk bytes,
              op = BatchPut (NewIndex C (Target m) blk) bytes) batch /\
    kv (MergeLabels C v m w).2 =
      (Commit C batch (foldl (deleteLabel C) (kv w) (Merged m))).1.
Proof.
  intros Hret. pose proof (MergeLabels_store C v m w) as H.
  destruct (MergeLabels C v m w) as [o w']. simpl in Hret. by subst o.
Qed.

(** ** The properties on concrete runs *)

(** The statement of [scanChunks_invariants] on a scan of two stored blocks
    of label 1, (0,0,0) with no run and (0,0,1), against the split blocks
    (0,0,0) and (0,0,2). *)
Lemma scanChunks_invariants_witness :
  (0 <= 1 <= 0 + 2)%nat /\
  exists queued,
    [BatchDelete (MemStore.newIndex 1 (MemStore.blk 0 0 0))] = [] ++ queued /\
    (length queued <= 2)%nat /\
    Forall (fun op => exists blk, opKey op = NewIndex MemStore.mem 1 blk) queued.
Proof.
  apply (scanChunks_invariants MemStore.mem 1
           {[MemStore.blk 0 0 0 := [mkRLE 2 0 0 3]]}
           [MemStore.blk 0 0 0; MemStore.blk 0 0 2]
           [mkChunk (MemStore.newIndex 1 (MemStore.blk 0 0 0)) [];
            mkChunk (MemStore.newIndex 1 (MemStore.blk 0 0 1)) [32; 0; 0; 4]]
           0 [] None 1 [BatchDelete (MemStore.newIndex 1 (MemStore.blk 0 0 0))]).
  vm_compute. reflexivity.
Defined.

(** The statement of [no_batch_store_fails_first] on the in-memory
    collaborators with a store that has no batch interface. *)
Lemma no_batch_store_fails_first_witness :
  (exists e, MergeLabels (withStore StoreNoBatch MemStore.mem) 0 Scenario.mergeOp
               Scenario.mergeWorld = (Returns (Some e), Scenario.mergeWorld)) /\
  (exists e, SplitLabels (withStore StoreNoBatch MemStore.mem) 0 1 Scenario.splitPayload
               Scenario.mergeWorld = (Returns (0, Some e), Scenario.mergeWorld)) /\
  (exists e, writeLabelVol (withStore StoreNoBatch MemStore.mem) 0 1
               [MemStore.blk 0 0 0] ∅ Scenario.mergeWorld
             = (Returns (Some e), Scenario.mergeWorld)).
Proof.
  apply (no_batch_store_fails_first (withStore StoreNoBatch MemStore.mem) 0
           Scenario.mergeOp 1 Scenario.splitPayload [MemStore.blk 0 0 0] ∅
           Scenario.mergeWorld).
  discriminate.
Defined.

(** The statement of [truncated_payload_rejected] on a payload of the
    12 header bytes and 3 bytes of the run count. *)
Lemma truncated_payload_rejected_witness :
  (exists label e,
     (SplitLabels MemStore.mem 0 1 (replicate 15 0) Scenario.splitWorld).1
       = Returns (label, Some e)) /\
  kv (SplitLabels MemStore.mem 0 1 (replicate 15 0) Scenario.splitWorld).2
    = kv Scenario.splitWorld /\
  sameMarks (dirty (SplitLabels MemStore.mem 0 1 (replicate 15 0) Scenario.splitWorld).2)
    (dirty Scenario.splitWorld) /\
  (events (SplitLabels MemStore.mem 0 1 (replicate 15 0) Scenario.splitWorld).2
     = events Scenario.splitWorld \/
   exists toLabel,
     events (SplitLabels MemStore.mem 0 1 (replicate 15 0) Scenario.splitWorld).2 =
       events Scenario.splitWorld ++ [(SplitStartEvent, DeltaSplitStart 1 toLabel)]).
Proof.
  apply (truncated_payload_rejected MemStore.mem 0 1 (replicate 15 0) Scenario.splitWorld).
  simpl. lia.
Defined.

(** The statement of [merge_deletes_sources_and_puts_target] on the merge
    of label 2 into label 1. *)
Lemma merge_deletes_sources_and_puts_target_witness :
  exists batch,
    Forall (fun op => exists blk bytes,
              op = BatchPut (NewIndex MemStore.mem (Target Scenario.mergeOp) blk) bytes)
           batch /\
    kv (MergeLabels MemStore.mem 0 Scenario.mergeOp Scenario.mergeWorld).2 =
      (Commit MemStore.mem batch
         (foldl (deleteLabel MemStore.mem) (kv Scenario.mergeWorld)
                (Merged Scenario.mergeOp))).1.
Proof.
  apply (merge_deletes_sources_and_puts_target MemStore.mem 0 Scenario.mergeOp
           Scenario.mergeWorld).
  vm_compute. reflexivity.
Defined.

(** * Properties of the tile side (package googlevoxels) *)

Section TileFacts.

Import GoogleVoxels.

Lemma toByte_small (z : Z) : 0 <= z < 256 -> toByte z = z.
Proof. intros H. unfold toByte. by rewrite Z.mod_small. Qed.

Lemma wrap32_small (z : Z) : - 2 ^ 31 <= z < 2 ^ 31 -> wrap32 z = z.
Proof. intros H. unfold wrap32. rewrite Z.mod_small; lia. Qed.

Lemma indexZ_Some {A} (s : list A) (i : Z) (a : A) :
  indexZ s i = Some a -> 0 <= i < Z.of_nat (length s).
Proof.
  unfold indexZ. destruct (Z.ltb_spec i 0) as [Hi|Hi]; [done|].
  intros Hl%lookup_lt_Some. lia.
Qed.

Lemma indexZ_None {A} (s : list A) (i : Z) :
  indexZ s i = None <-> i < 0 \/ Z.of_nat (length s) <= i.
Proof.
  unfold indexZ. destruct (Z.ltb_spec i 0) as [Hi|Hi].
  - split; [auto|done].
  - rewrite lookup_ge_None. lia.
Qed.

End TileFacts.

(** X8.  The two-byte form of a tile spec and the tile spec determine each
    other: unmarshalling what [MarshalBinary] gives restores scaling and
    plane (both uint8) over whatever the receiver held, and marshalling what
    [UnmarshalBinary] accepted gives back the two bytes. *)
Theorem TileSpec_binary_round_trip (ts ts0 : GoogleVoxels.TileSpec) (data : list Z) :
  0 <= GoogleVoxels.scaling ts < 256 -> 0 <= GoogleVoxels.plane ts < 256 ->
  Forall (fun b => 0 <= b < 256) data ->
  GoogleVoxels.TileSpec_UnmarshalBinary ts0 (GoogleVoxels.TileSpec_MarshalBinary ts).1
    = (ts, None) /\
  ((GoogleVoxels.TileSpec_UnmarshalBinary ts0 data).2 = None ->
   (GoogleVoxels.TileSpec_MarshalBinary
      (GoogleVoxels.TileSpec_UnmarshalBinary ts0 data).1).1 = data).
Proof.
  intros Hs Hp Hdata. split.
  - unfold GoogleVoxels.TileSpec_MarshalBinary, GoogleVoxels.TileSpec_UnmarshalBinary.
    simpl. rewrite !toByte_small by done. by destruct ts.
  - unfold GoogleVoxels.TileSpec_UnmarshalBinary.
    destruct (decide (length data <> 2%nat)) as [|Hlen]; [done|]. intros _.
    destruct data as [|d0 [|d1 [|]]]; simpl in Hlen; try lia.
    apply Forall_cons in Hdata as [H0 [H1 _]%Forall_cons].
    unfold GoogleVoxels.TileSpec_MarshalBinary. simpl.
    by rewrite !toByte_small.
Qed.

Lemma TileSpec_binary_round_trip_witness :
  GoogleVoxels.TileSpec_UnmarshalBinary (GoogleVoxels.mkTileSpec 7 0)
    (GoogleVoxels.TileSpec_MarshalBinary (GoogleVoxels.mkTileSpec 3 2)).1
    = (GoogleVoxels.mkTileSpec 3 2, None) /\
  ((GoogleVoxels.TileSpec_UnmarshalBinary (GoogleVoxels.mkTileSpec 7 0) [255; 1]).2 = None ->
   (GoogleVoxels.TileSpec_MarshalBinary
      (GoogleVoxels.TileSpec_UnmarshalBinary (GoogleVoxels.mkTileSpec 7 0) [255; 1]).1).1
     = [255; 1]).
Proof.
  apply (TileSpec_binary_round_trip (GoogleVoxels.mkTileSpec 3 2)
           (GoogleVoxels.mkTileSpec 7 0) [255; 1]).
  - simpl. lia.
  - simpl. lia.
  - repeat constructor; lia.
Defined.

(** X9.  [GetVoxelSize] panics with an index out of range exactly when the
    data has geometries and a tile map, and the index that the map gives for
    the tile spec is negative or equal to the number of geometries: the
    guard [int(scaleIndex) > len(d.Scales)] lets the latter through. *)
Theorem GetVoxelSize_panics_iff {float32 : Type} (d : GoogleVoxels.Data (float32 := float32))
  (ts : GoogleVoxels.TileSpec) :
  GoogleVoxels.GetVoxelSize d (Some ts) = Panics IndexOutOfRange <->
  GoogleVoxels.Scales d <> [] /\ GoogleVoxels.TileMap d <> None /\
  (GoogleVoxels.tileIndex d ts < 0 \/
   GoogleVoxels.tileIndex d ts = Z.of_nat (length (GoogleVoxels.Scales d))).
Proof.
  unfold GoogleVoxels.GetVoxelSize.
  destruct (decide (length (GoogleVoxels.Scales d) = 0%nat)) as [H0|H0].
  { split; [done|]. intros [Hs _]. by destruct (GoogleVoxels.Scales d). }
  destruct (decide (GoogleVoxels.TileMap d = None)) as [Hm|Hm].
  { split; [done|]. by intros (_ & ? & _). }
  assert (GoogleVoxels.Scales d <> []) as Hne by (by destruct (GoogleVoxels.Scales d)).
  simpl. destruct (decide (_ > _)) as [Hgt|Hgt].
  { split; [done|]. intros (_ & _ & [?| ?]); lia. }
  destruct (GoogleVoxels.indexZ _ _) as [geom|] eqn:Hi.
  - split; [done|]. apply indexZ_Some in Hi. intros (_ & _ & [?| ?]); lia.
  - split; [|done]. intros _. apply indexZ_None in Hi. split; [done|]. split; [done|]. lia.
Qed.

(** X10.  A tile spec that the tile map does not hold is served silently
    from the first geometry: [GetVoxelSize] returns the pixel size of
    [Scales[0]] and no error. *)
Theorem GetVoxelSize_unknown_spec_gets_first {float32 : Type}
  (d : GoogleVoxels.Data (float32 := float32)) (ts : GoogleVoxels.TileSpec)
  (tm : GoogleVoxels.GeometryMap) (geom : GoogleVoxels.Geometry) :
  GoogleVoxels.TileMap d = Some tm -> tm !! ts = None ->
  head (GoogleVoxels.Scales d) = Some geom ->
  GoogleVoxels.GetVoxelSize d (Some ts) = Returns (inr (GoogleVoxels.PixelSize geom)).
Proof.
  intros Hm Hts Hg. unfold GoogleVoxels.GetVoxelSize, GoogleVoxels.tileIndex.
  rewrite Hm. simpl. rewrite Hts. simpl.
  destruct (GoogleVoxels.Scales d) as [|g rest]; [done|]. simpl in *.
  injection Hg as ->.
  repeat case_decide; try done; lia.
Qed.

Lemma GetVoxelSize_unknown_spec_gets_first_witness :
  GoogleVoxels.GetVoxelSize GoogleVoxels.Flat.volume (Some (GoogleVoxels.mkTileSpec 5 1))
    = Returns (inr [8; 8; 8]).
Proof.
  apply (GetVoxelSize_unknown_spec_gets_first GoogleVoxels.Flat.volume
           (GoogleVoxels.mkTileSpec 5 1) {[GoogleVoxels.mkTileSpec 0 GoogleVoxels.XY := 0]}
           (GoogleVoxels.mkGeometry (GoogleVoxels.mkPoint3d 100 80 60) 1 "uint8" [8; 8; 8])).
  - reflexivity.
  - vm_compute. reflexivity.
  - reflexivity.
Defined.

Section SpecFacts.

Import GoogleVoxels.

Context {float32 DataShape Point2d : Type}
        (Equals : DataShape -> DataShape -> bool)
        (dvidXY dvidXZ dvidYZ : DataShape)
        (GetPoint3dFrom2d : DataShape -> Point2d -> Z -> error + Point3d)
        (Expand2d : Point3d -> DataShape -> Point2d -> Point3d * option error).

(** The three rounds of the clipping loop, axis by axis. *)
Lemma clip_axes (volumeSize offset maxpt sizeWant : Point3d) :
  let st := foldl (clipAxis volumeSize offset maxpt) (false, sizeWant) [0; 1; 2]%nat in
  (st.1 = true <-> exists i, (i < 3)%nat /\ at3 maxpt i > at3 volumeSize i) /\
  forall i, (i < 3)%nat ->
    at3 st.2 i = if decide (at3 maxpt i > at3 volumeSize i)
                 then wrap32 (at3 volumeSize i - at3 offset i)
                 else at3 sizeWant i.
Proof.
  assert (forall P : nat -> Prop,
            (exists i, (i < 3)%nat /\ P i) <-> P 0%nat \/ P 1%nat \/ P 2%nat) as Hex.
  { intros P. split.
    - intros (i & Hi & HP).
      destruct i as [|[|[|i]]]; [auto..|lia].
    - intros [H|[H|H]]; eexists; (split; [|exact H]); lia. }
  simpl. rewrite Hex. unfold clipAxis. cbn [at3].
  destruct (decide (p0 maxpt > p0 volumeSize));
    destruct (decide (p1 maxpt > p1 volumeSize));
    destruct (decide (p2 maxpt > p2 volumeSize)); cbn [fst snd set3 at3 p0 p1 p2];
    (split; [split; [intros; first [done|lia|auto] | intros [?|[?|?]]; first [done|lia]]|]);
    intros [|[|[|i]]] Hi; cbn [at3 p0 p1 p2]; try lia;
    repeat case_decide; first [done|lia].
Qed.

End SpecFacts.

(** X11.  The tile that [GetGoogleSpec] returns carries the requested offset
    and the wanted size, and refers to a geometry of [Scales].  It is marked
    outside exactly when the offset reaches the volume's size on some axis,
    and then has size zero and no edge mark.  Otherwise it is marked as an
    edge exactly when the far corner passes the volume on some axis; on such
    an axis the size is cut to end at the volume's boundary (and is positive,
    for a non-negative offset), on the others it is the wanted size. *)
Theorem GetGoogleSpec_clips_to_volume {float32 DataShape Point2d : Type}
  (Equals : DataShape -> DataShape -> bool) (dvidXY dvidXZ dvidYZ : DataShape)
  (GetPoint3dFrom2d : DataShape -> Point2d -> Z -> error + GoogleVoxels.Point3d)
  (Expand2d : GoogleVoxels.Point3d -> DataShape -> Point2d
              -> GoogleVoxels.Point3d * option error)
  (d : GoogleVoxels.Data (float32 := float32)) (scaling : Z) (plane : DataShape)
  (offset : GoogleVoxels.Point3d) (size : Point2d) (tile : GoogleVoxels.GoogleTileSpec) :
  GoogleVoxels.GetGoogleSpec Equals dvidXY dvidXZ dvidYZ GetPoint3dFrom2d Expand2d
    d scaling plane offset size = Returns (inr tile) ->
  exists geom,
    GoogleVoxels.indexZ (GoogleVoxels.Scales d) (GoogleVoxels.gi tile) = Some geom /\
    GoogleVoxels.offset tile = offset /\
    GetPoint3dFrom2d plane size 1 = inr (GoogleVoxels.sizeWant tile) /\
    (GoogleVoxels.outside tile = true <->
     exists i, (i < 3)%nat /\
       GoogleVoxels.at3 offset i >= GoogleVoxels.at3 (GoogleVoxels.VolumeSize geom) i) /\
    (GoogleVoxels.outside tile = true ->
     GoogleVoxels.size tile = GoogleVoxels.zeroPoint /\ GoogleVoxels.edge tile = false) /\
    (GoogleVoxels.outside tile = false ->
     (GoogleVoxels.edge tile = true <->
      exists i, (i < 3)%nat /\
        GoogleVoxels.at3 (Expand2d offset plane size).1 i
          > GoogleVoxels.at3 (GoogleVoxels.VolumeSize geom) i) /\
     forall i, (i < 3)%nat ->
       if decide (GoogleVoxels.at3 (Expand2d offset plane size).1 i
                    > GoogleVoxels.at3 (GoogleVoxels.VolumeSize geom) i)
       then 0 <= GoogleVoxels.at3 offset i ->
            GoogleVoxels.at3 (GoogleVoxels.VolumeSize geom) i < 2 ^ 31 ->
            0 < GoogleVoxels.at3 (GoogleVoxels.size tile) i /\
            GoogleVoxels.at3 offset i + GoogleVoxels.at3 (GoogleVoxels.size tile) i
              = GoogleVoxels.at3 (GoogleVoxels.VolumeSize geom) i
       else GoogleVoxels.at3 (GoogleVoxels.size tile) i
              = GoogleVoxels.at3 (GoogleVoxels.sizeWant tile) i).
Proof.
  unfold GoogleVoxels.GetGoogleSpec.
  destruct (GetPoint3dFrom2d plane size 1) as [e|sizeWant]; [done|].
  destruct (GoogleVoxels.GetTileSpec _ _ _ _ _ _) as [e|tileSpec]; [done|].
  destruct (_ ≫= _) as [geomIndex|]; [|done].
  destruct (GoogleVoxels.indexZ _ _) as [geom|] eqn:Hgeom; [|done].
  destruct (GoogleVoxels.channelBytes _) as [bytes|]; [|done].
  assert (forall P : nat -> Prop,
            (exists i, (i < 3)%nat /\ P i) <-> P 0%nat \/ P 1%nat \/ P 2%nat) as Hex.
  { intros P. split.
    - intros (i & Hi & HP). destruct i as [|[|[|i]]]; [auto..|lia].
    - intros [H|[H|H]]; eexists; (split; [|exact H]); lia. }
  destruct (decide (_ \/ _)) as [Hout|Hin].
  - intros [= <-]. exists geom. simpl.
    split; [done|]. split; [done|]. split; [done|].
    split; [by rewrite Hex|]. split; [done|]. done.
  - pose proof (clip_axes (GoogleVoxels.VolumeSize geom) offset
                  (Expand2d offset plane size).1 sizeWant) as [Hedge Hsize].
    destruct (foldl _ _ _) as [edge adjSize]. simpl in Hedge, Hsize.
    intros [= <-]. exists geom. simpl.
    split; [done|]. split; [done|]. split; [done|].
    split; [rewrite Hex; split; [done|by intros ?]|].
    split; [done|]. intros _. split; [done|].
    intros i Hi. specialize (Hsize i Hi).
    destruct (decide (_ > _)) as [Hclip|Hkeep]; [|done].
    intros Hoff Hvol. rewrite Hsize.
    assert (GoogleVoxels.at3 offset i < GoogleVoxels.at3 (GoogleVoxels.VolumeSize geom) i).
    { destruct i as [|[|[|i]]]; lia. }
    rewrite wrap32_small by lia. lia.
Qed.

(** The statement of [GetGoogleSpec_clips_to_volume] on a 64 x 64 XY tile
    at (90, 40, 5) of the 100 x 80 x 60 volume, which is cut to 10 x 40. *)
Lemma GetGoogleSpec_clips_to_volume_witness :
  exists geom,
    GoogleVoxels.indexZ (GoogleVoxels.Scales GoogleVoxels.Flat.volume) 0 = Some geom /\
    GoogleVoxels.mkPoint3d 90 40 5 = GoogleVoxels.mkPoint3d 90 40 5 /\
    GoogleVoxels.Flat.getPoint3dFrom2d 0 (64, 64) 1 = inr (GoogleVoxels.mkPoint3d 64 64 1) /\
    (false = true <->
     exists i, (i < 3)%nat /\
       GoogleVoxels.at3 (GoogleVoxels.mkPoint3d 90 40 5) i
         >= GoogleVoxels.at3 (GoogleVoxels.VolumeSize geom) i) /\
    (false = true ->
     GoogleVoxels.mkPoint3d 10 40 1 = GoogleVoxels.zeroPoint /\ true = false) /\
    (false = false ->
     (true = true <->
      exists i, (i < 3)%nat /\
        GoogleVoxels.at3
          (GoogleVoxels.Flat.expand2d (GoogleVoxels.mkPoint3d 90 40 5) 0 (64, 64)).1 i
          > GoogleVoxels.at3 (GoogleVoxels.VolumeSize geom) i) /\
     forall i, (i < 3)%nat ->
       if decide (GoogleVoxels.at3
                    (GoogleVoxels.Flat.expand2d (GoogleVoxels.mkPoint3d 90 40 5) 0 (64, 64)).1 i
                    > GoogleVoxels.at3 (GoogleVoxels.VolumeSize geom) i)
       then 0 <= GoogleVoxels.at3 (GoogleVoxels.mkPoint3d 90 40 5) i ->
            GoogleVoxels.at3 (GoogleVoxels.VolumeSize geom) i < 2 ^ 31 ->
            0 < GoogleVoxels.at3 (GoogleVoxels.mkPoint3d 10 40 1) i /\
            GoogleVoxels.at3 (GoogleVoxels.mkPoint3d 90 40 5) i
              + GoogleVoxels.at3 (GoogleVoxels.mkPoint3d 10 40 1) i
              = GoogleVoxels.at3 (GoogleVoxels.VolumeSize geom) i
       else GoogleVoxels.at3 (GoogleVoxels.mkPoint3d 10 40 1) i
              = GoogleVoxels.at3 (GoogleVoxels.mkPoint3d 64 64 1) i).
Proof.
  apply (GetGoogleSpec_clips_to_volume Z.eqb 0 1 2
           GoogleVoxels.Flat.getPoint3dFrom2d GoogleVoxels.Flat.expand2d
           GoogleVoxels.Flat.volume 0 0 (GoogleVoxels.mkPoint3d 90 40 5) (64, 64)
           (GoogleVoxels.mkGoogleTileSpec (GoogleVoxels.mkPoint3d 90 40 5)
              (GoogleVoxels.mkPoint3d 10 40 1) (GoogleVoxels.mkPoint3d 64 64 1)
              0 true false 1 "uint8" 1)).
  vm_compute. reflexivity.
Defined.

Section PadFacts.

Import GoogleVoxels.

(** [copy(out[a:a+n], src)] with [src] of length [n] overwrites exactly the
    window. *)
Lemma copyAt_window (out src : list Z) (a n : nat) :
  length src = n -> (a + n <= length out)%nat ->
  copyAt out (Z.of_nat a) (Z.of_nat (a + n)) src = take a out ++ src ++ drop (a + n) out.
Proof.
  intros Hsrc Hout. unfold copyAt.
  replace (Z.to_nat (Z.of_nat (a + n) - Z.of_nat a)) with n by lia.
  rewrite Hsrc, Nat.min_id, Nat2Z.id. by rewrite <- Hsrc at 1; rewrite firstn_all.
Qed.

Lemma window_lookup (out src : list Z) (a n j : nat) :
  length src = n -> (a + n <= length out)%nat ->
  (take a out ++ src ++ drop (a + n) out) !! j =
    if decide (a <= j < a + n)%nat then src !! (j - a)%nat else out !! j.
Proof.
  intros Hsrc Hout.
  assert (length (take a out) = a) as Ha by (rewrite length_take; lia).
  destruct (decide (a <= j < a + n)%nat) as [Hin|Hout'].
  - rewrite lookup_app_r by lia. rewrite Ha.
    rewrite lookup_app_l by lia. done.
  - destruct (decide (j < a)%nat) as [Hlt|Hge].
    + rewrite lookup_app_l by lia. by rewrite lookup_take_lt by lia.
    + rewrite lookup_app_r by lia. rewrite Ha.
      rewrite lookup_app_r by lia. rewrite Hsrc, lookup_drop. f_equal. lia.
Qed.

Lemma window_length (out src : list Z) (a n : nat) :
  length src = n -> (a + n <= length out)%nat ->
  length (take a out ++ src ++ drop (a + n) out) = length out.
Proof.
  intros Hsrc Hout. rewrite !length_app, length_take, length_drop. lia.
Qed.

Lemma inBounds_true (lo hi : Z) (cap : nat) :
  0 <= lo <= hi -> hi <= Z.of_nat cap -> inBounds lo hi cap = true.
Proof.
  intros [Hlo Hhi] Hcap. unfold inBounds.
  by rewrite !andb_true_iff, !Z.leb_le.
Qed.

(** The rows of the loop: row [y] of the input lands at the start of row [y]
    of the output, the rest of the output is untouched. *)
Lemma padRows_spec (I O : nat) (buf : list Z) :
  (I <= O)%nat ->
  forall (r k : nat) (out : list Z),
    ((k + r) * I <= length buf)%nat -> ((k + r) * O <= length out)%nat ->
    Z.of_nat (length out) < 2 ^ 31 ->
    exists out',
      padRows r (Z.of_nat I) (Z.of_nat O) (Z.of_nat (k * I)) (Z.of_nat (k * O)) buf out
        = Padded out' /\
      length out' = length out /\
      forall y x : nat, (x < O)%nat ->
        out' !! (y * O + x)%nat =
          if decide ((k <= y < k + r)%nat /\ (x < I)%nat)
          then buf !! (y * I + x)%nat else out !! (y * O + x)%nat.
Proof.
  intros HIO. induction r as [|r IH]; intros k out Hbuf Hout Hmax.
  - exists out. split; [done|]. split; [done|]. intros y x Hx.
    rewrite decide_False by lia. done.
  - assert (k * O + I <= length out)%nat as Hwin by nia.
    assert (k * I + I <= length buf)%nat as Hsrc by nia.
    assert (Z.of_nat (k * I + I) < 2 ^ 31) as HmaxI by nia.
    cbn [padRows].
    rewrite <- !Nat2Z.inj_add, !wrap32_small by lia.
    rewrite !inBounds_true by lia.
    set (src := take (Z.to_nat (Z.of_nat (k * I + I) - Z.of_nat (k * I)))
                     (drop (Z.to_nat (Z.of_nat (k * I))) buf)).
    assert (length src = I) as Hlen.
    { unfold src. rewrite length_take, length_drop. lia. }
    assert (forall i, (i < I)%nat -> src !! i = buf !! (k * I + i)%nat) as Hsrci.
    { intros i Hi. unfold src. rewrite lookup_take_lt by lia.
      rewrite lookup_drop. f_equal. lia. }
    rewrite (copyAt_window out src (k * O) I Hlen Hwin).
    pose proof (window_length out src (k * O) I Hlen Hwin) as Hlen1.
    destruct (IH (S k) (take (k * O) out ++ src ++ drop (k * O + I) out))
      as (out' & Hrun & Hlen' & Hrows).
    { replace (S k + r)%nat with (k + S r)%nat by lia. done. }
    { rewrite Hlen1. replace (S k + r)%nat with (k + S r)%nat by lia. done. }
    { by rewrite Hlen1. }
    exists out'. split.
    { replace (k * I + I)%nat with (S k * I)%nat by lia.
      replace (k * O + O)%nat with (S k * O)%nat by lia. exact Hrun. }
    split; [by rewrite Hlen', Hlen1|].
    intros y x Hx. rewrite (Hrows y x Hx).
    rewrite (window_lookup out src (k * O) I (y * O + x) Hlen Hwin).
    destruct (decide ((S k <= y < S k + r)%nat /\ (x < I)%nat)) as [Hlater|Hnot].
    + rewrite decide_True by lia. done.
    + destruct (decide (k * O <= y * O + x < k * O + I)%nat) as [Hrow|Hother].
      * assert (y = k) as -> by nia.
        rewrite decide_True by lia. rewrite Hsrci by lia. f_equal. lia.
      * rewrite decide_False; [done|]. intros [Hy Hx'].
        assert (y = k) as -> by lia. lia.
Qed.

End PadFacts.

(** X12.  For a received tile that is no larger than the wanted one, with
    at least one byte per voxel, of the announced number of bytes and with
    no product beyond int32, [padTile] returns without error an image of the
    wanted size in which every row of the received data stands at the start
    of the same row and every other byte is zero. *)
Theorem padTile_pads_rows (gts : GoogleVoxels.GoogleTileSpec) (data spare : list Z) :
  0 <= GoogleVoxels.p0 (GoogleVoxels.size gts) <= GoogleVoxels.p0 (GoogleVoxels.sizeWant gts) ->
  0 <= GoogleVoxels.p1 (GoogleVoxels.size gts) <= GoogleVoxels.p1 (GoogleVoxels.sizeWant gts) ->
  0 < GoogleVoxels.bytesPerVoxel gts ->
  GoogleVoxels.p0 (GoogleVoxels.sizeWant gts) * GoogleVoxels.bytesPerVoxel gts < 2 ^ 31 ->
  GoogleVoxels.p0 (GoogleVoxels.sizeWant gts) * GoogleVoxels.bytesPerVoxel gts
    * GoogleVoxels.p1 (GoogleVoxels.sizeWant gts) < 2 ^ 31 ->
  Z.of_nat (length data) =
    GoogleVoxels.p0 (GoogleVoxels.size gts) * GoogleVoxels.p1 (GoogleVoxels.size gts)
      * GoogleVoxels.bytesPerVoxel gts ->
  exists out,
    GoogleVoxels.padTile gts data spare = GoogleVoxels.Padded (out, None) /\
    Z.of_nat (length out) =
      GoogleVoxels.p0 (GoogleVoxels.sizeWant gts) * GoogleVoxels.bytesPerVoxel gts
        * GoogleVoxels.p1 (GoogleVoxels.sizeWant gts) /\
    forall y x : nat,
      Z.of_nat y < GoogleVoxels.p1 (GoogleVoxels.sizeWant gts) ->
      Z.of_nat x < GoogleVoxels.p0 (GoogleVoxels.sizeWant gts) * GoogleVoxels.bytesPerVoxel gts ->
      out !! (y * Z.to_nat (GoogleVoxels.p0 (GoogleVoxels.sizeWant gts)
                              * GoogleVoxels.bytesPerVoxel gts) + x)%nat =
        if decide (Z.of_nat y < GoogleVoxels.p1 (GoogleVoxels.size gts) /\
                   Z.of_nat x < GoogleVoxels.p0 (GoogleVoxels.size gts)
                                  * GoogleVoxels.bytesPerVoxel gts)
        then data !! (y * Z.to_nat (GoogleVoxels.p0 (GoogleVoxels.size gts)
                                      * GoogleVoxels.bytesPerVoxel gts) + x)%nat
        else Some 0.
Proof.
  destruct gts as [off [s0 s1 s2] [sw0 sw1 sw2] gi edge outside cc ct bpv].
  cbn [GoogleVoxels.size GoogleVoxels.sizeWant GoogleVoxels.bytesPerVoxel
       GoogleVoxels.p0 GoogleVoxels.p1].
  intros H0 H1 Hb HO HN Hlen.
  assert (0 <= s0 * bpv <= sw0 * bpv) as HI by nia.
  assert (0 <= s0 * s1 <= s0 * s1 * bpv) as H01 by nia.
  assert (s0 * s1 * bpv <= sw0 * bpv * sw1) as HIN by nia.
  unfold GoogleVoxels.padTile.
  cbn [GoogleVoxels.size GoogleVoxels.sizeWant GoogleVoxels.bytesPerVoxel
       GoogleVoxels.p0 GoogleVoxels.p1].
  rewrite (wrap32_small (s0 * s1)) by lia.
  rewrite (wrap32_small (s0 * s1 * bpv)) by lia.
  rewrite (wrap32_small (Z.of_nat (length data))) by lia.
  rewrite decide_False by lia.
  rewrite (wrap32_small (s0 * bpv)) by lia.
  rewrite (wrap32_small (sw0 * bpv)) by lia.
  rewrite (wrap32_small (sw0 * bpv * sw1)) by nia.
  rewrite decide_False by nia.
  set (I := Z.to_nat (s0 * bpv)). set (O := Z.to_nat (sw0 * bpv)).
  set (out0 := replicate (Z.to_nat (sw0 * bpv * sw1)) 0).
  assert (length out0 = Z.to_nat (sw0 * bpv * sw1)) as Hout0 by apply length_replicate.
  destruct (padRows_spec I O (data ++ spare) ltac:(lia) (Z.to_nat s1) 0 out0)
    as (out & Hrun & Hlen' & Hrows).
  { rewrite length_app. nia. }
  { rewrite Hout0. nia. }
  { rewrite Hout0. nia. }
  exists out. split.
  { replace (s0 * bpv) with (Z.of_nat I) by lia.
    replace (sw0 * bpv) with (Z.of_nat O) by lia.
    change (Z.of_nat (0 * I)) with 0 in Hrun. change (Z.of_nat (0 * O)) with 0 in Hrun.
    by rewrite Hrun. }
  split; [rewrite Hlen', Hout0; nia|].
  intros y x Hy Hx. rewrite (Hrows y x) by lia.
  destruct (decide (Z.of_nat y < s1 /\ Z.of_nat x < s0 * bpv)) as [[Hy1 Hx1]|Hno].
  - rewrite decide_True by lia. apply lookup_app_l. nia.
  - rewrite decide_False by lia. subst out0.
    apply lookup_replicate_2. nia.
Qed.

(** The statement of [padTile_pads_rows] on a 2 x 2 tile of bytes 1..4
    padded to 3 x 3. *)
Lemma padTile_pads_rows_witness :
  exists out,
    GoogleVoxels.padTile GoogleVoxels.Flat.clipped [1; 2; 3; 4] [9; 9]
      = GoogleVoxels.Padded (out, None) /\
    Z.of_nat (length out) = 3 * 1 * 3 /\
    forall y x : nat,
      Z.of_nat y < 3 -> Z.of_nat x < 3 * 1 ->
      out !! (y * Z.to_nat (3 * 1) + x)%nat =
        if decide (Z.of_nat y < 2 /\ Z.of_nat x < 2 * 1)
        then [1; 2; 3; 4] !! (y * Z.to_nat (2 * 1) + x)%nat
        else Some 0.
Proof.
  apply (padTile_pads_rows GoogleVoxels.Flat.clipped [1; 2; 3; 4] [9; 9]);
    simpl; lia.
Defined.

Example padTile_clipped :
  GoogleVoxels.padTile GoogleVoxels.Flat.clipped [1; 2; 3; 4] [9; 9]
    = GoogleVoxels.Padded ([1; 2; 0; 3; 4; 0; 0; 0; 0], None).
Proof. vm_compute. reflexivity. Qed.

Section LevelFacts.

Import GoogleVoxels.

Context {float32 Level : Type} (zeroFloat : float32) (double : float32 -> float32)
        (Duplicate : LevelSpec (float32 := float32) -> Level).

Lemma maxScaling_list_ge (l : list (TileSpec * Z)) (ts : TileSpec) (gi : Z) :
  (ts, gi) ∈ l ->
  scaling ts <= foldr (fun (kv : TileSpec * Z) maxScale =>
                         if decide (scaling kv.1 > maxScale) then scaling kv.1 else maxScale)
                      0 l.
Proof.
  induction l as [|kv l IH]; [by intros ?%elem_of_nil|].
  intros [Heq|Hin]%elem_of_cons; simpl.
  - subst kv. simpl. case_decide; lia.
  - specialize (IH Hin). case_decide; lia.
Qed.

Lemma maxScaling_list_bounds (l : list (TileSpec * Z)) (B : Z) :
  0 <= B -> (forall ts gi, (ts, gi) ∈ l -> 0 <= scaling ts <= B) ->
  0 <= foldr (fun (kv : TileSpec * Z) maxScale =>
                if decide (scaling kv.1 > maxScale) then scaling kv.1 else maxScale)
             0 l <= B.
Proof.
  intros HB. induction l as [|[ts gi] l IH]; intros Hall; simpl; [lia|].
  assert (0 <= scaling ts <= B) by (apply (Hall ts gi); left).
  assert (forall ts' gi', (ts', gi') ∈ l -> 0 <= scaling ts' <= B) as Hrest.
  { intros ts' gi' Hin. apply (Hall ts' gi'). by right. }
  specialize (IH Hrest). case_decide; lia.
Qed.

Lemma maxScaling_ge (tileMap : GeometryMap) (ts : TileSpec) (gi : Z) :
  tileMap !! ts = Some gi -> scaling ts <= maxScaling tileMap.
Proof.
  intros Hts. apply (maxScaling_list_ge _ ts gi). by apply elem_of_map_to_list.
Qed.

Lemma maxScaling_bounds (tileMap : GeometryMap) (B : Z) :
  0 <= B -> (forall ts gi, tileMap !! ts = Some gi -> 0 <= scaling ts <= B) ->
  0 <= maxScaling tileMap <= B.
Proof.
  intros HB Hall. apply maxScaling_list_bounds; [done|].
  intros ts gi Hin. apply (Hall ts gi). by apply elem_of_map_to_list.
Qed.

(** With [maxScale] 255 the condition [scale <= maxScale] holds for every
    uint8: the loop uses up any fuel. *)
Lemma levelLoop_wraps (fuel : nat) : forall scale levelSpec acc,
  0 <= scale <= 255 ->
  levelLoop double Duplicate fuel 255 scale levelSpec acc = None.
Proof.
  induction fuel as [|fuel IH]; intros scale levelSpec acc Hs; [done|].
  cbn [levelLoop]. rewrite decide_True by lia. apply IH.
  unfold toByte. pose proof (Z.mod_pos_bound (scale + 1) 256). lia.
Qed.

(** Below 255 the loop writes the levels [scale..maxScale], each with the
    resolution doubled once more. *)
Lemma levelLoop_levels (maxScale : Z) (n : nat) : forall scale levelSpec acc fuel,
  maxScale < 255 -> 0 <= scale -> Z.of_nat n = maxScale + 1 - scale ->
  (n + 1 <= fuel)%nat ->
  exists m,
    levelLoop double Duplicate fuel maxScale scale levelSpec acc = Some m /\
    forall s : Z,
      m !! s = if decide (scale <= s <= maxScale)
               then Some (Duplicate
                            (mkLevelSpec
                               (map (Nat.iter (Z.to_nat (s - scale)) double)
                                    (Resolution levelSpec))
                               (LevelTileSize levelSpec)))
               else acc !! s.
Proof.
  induction n as [|n IH]; intros scale levelSpec acc fuel Hmax Hscale Hn Hfuel.
  - destruct fuel as [|fuel]; [lia|]. cbn [levelLoop].
    rewrite decide_False by lia. exists acc. split; [done|].
    intros s. rewrite decide_False by lia. done.
  - destruct fuel as [|fuel]; [lia|]. cbn [levelLoop].
    rewrite decide_True by lia.
    assert (toByte (scale + 1) = scale + 1) as ->.
    { unfold toByte. apply Z.mod_small. lia. }
    destruct (IH (scale + 1)
                 (mkLevelSpec (map double (Resolution levelSpec)) (LevelTileSize levelSpec))
                 (<[scale := Duplicate levelSpec]> acc) fuel) as (m & Hrun & Hm);
      [lia..|].
    exists m. split; [done|]. intros s. rewrite Hm. cbn [Resolution LevelTileSize].
    destruct (decide (scale + 1 <= s <= maxScale)) as [Hlater|Hnot].
    + rewrite decide_True by lia. do 2 f_equal. f_equal.
      rewrite map_map. apply map_ext. intros a.
      replace (Z.to_nat (s - scale)) with (S (Z.to_nat (s - (scale + 1)))) by lia.
      by rewrite Nat.iter_succ_r.
    + destruct (decide (s = scale)) as [->|Hne].
      * rewrite lookup_insert_eq, decide_True by lia.
        replace (Z.to_nat (scale - scale)) with 0%nat by lia. cbn [Nat.iter].
        rewrite map_id. by destruct levelSpec.
      * rewrite lookup_insert_ne by done. rewrite decide_False by lia. done.
Qed.

End LevelFacts.

(** X13.  When every scaling of the tile map is below 255, [getTileSpec]
    returns (the loop ends after one round per level) a spec with exactly
    the levels 0 .. maxScale, maxScale being the largest scaling of the map;
    level [s] has the given tile size in all three dimensions and the
    pixel size of the high-resolution geometry doubled [s] times. *)
Theorem getTileSpec_levels {float32 Level : Type} (zeroFloat : float32)
  (double : float32 -> float32)
  (Duplicate : GoogleVoxels.LevelSpec (float32 := float32) -> Level)
  (fuel : nat) (tileSize : Z) (hires : GoogleVoxels.Geometry)
  (tileMap : GoogleVoxels.GeometryMap) :
  (forall ts gi, tileMap !! ts = Some gi -> 0 <= GoogleVoxels.scaling ts < 255) ->
  (Z.to_nat (GoogleVoxels.maxScaling tileMap) + 2 <= fuel)%nat ->
  (forall ts gi, tileMap !! ts = Some gi ->
     GoogleVoxels.scaling ts <= GoogleVoxels.maxScaling tileMap) /\
  exists m,
    GoogleVoxels.getTileSpec zeroFloat double Duplicate fuel tileSize hires tileMap
      = Some m /\
    forall s : Z,
      m !! s =
        if decide (0 <= s <= GoogleVoxels.maxScaling tileMap)
        then Some (Duplicate
                     (GoogleVoxels.mkLevelSpec
                        (map (Nat.iter (Z.to_nat s) double)
                             (GoogleVoxels.copyFloats (replicate 3 zeroFloat)
                                                      (GoogleVoxels.PixelSize hires)))
                        (GoogleVoxels.mkPoint3d tileSize tileSize tileSize)))
        else None.
Proof.
  intros Hall Hfuel. split; [apply maxScaling_ge|].
  assert (0 <= GoogleVoxels.maxScaling tileMap <= 254) as Hmax.
  { apply maxScaling_bounds; [lia|]. intros ts gi Hts. specialize (Hall ts gi Hts). lia. }
  unfold GoogleVoxels.getTileSpec.
  destruct (levelLoop_levels double Duplicate (GoogleVoxels.maxScaling tileMap)
              (Z.to_nat (GoogleVoxels.maxScaling tileMap + 1)) 0
              (GoogleVoxels.mkLevelSpec
                 (GoogleVoxels.copyFloats (replicate 3 zeroFloat)
                                          (GoogleVoxels.PixelSize hires))
                 (GoogleVoxels.mkPoint3d tileSize tileSize tileSize))
              ∅ fuel) as (m & Hrun & Hm); [lia..|].
  exists m. split; [done|]. intros s. rewrite Hm.
  cbn [GoogleVoxels.Resolution GoogleVoxels.LevelTileSize].
  rewrite Z.sub_0_r. by rewrite lookup_empty.
Qed.

(** The statement of [getTileSpec_levels] on a tile map whose only key has
    scaling 2, with pixel size 8 x 8 x 8 and floats read as integers. *)
Lemma getTileSpec_levels_witness :
  (forall ts gi,
     ({[GoogleVoxels.mkTileSpec 2 GoogleVoxels.XY := 0]} : GoogleVoxels.GeometryMap) !! ts
       = Some gi ->
     GoogleVoxels.scaling ts
       <= GoogleVoxels.maxScaling {[GoogleVoxels.mkTileSpec 2 GoogleVoxels.XY := 0]}) /\
  exists m,
    GoogleVoxels.getTileSpec 0 (Z.mul 2) id 4 512
      (GoogleVoxels.mkGeometry (GoogleVoxels.mkPoint3d 100 80 60) 1 "uint8" [8; 8; 8])
      {[GoogleVoxels.mkTileSpec 2 GoogleVoxels.XY := 0]} = Some m /\
    forall s : Z,
      m !! s =
        if decide (0 <= s <= GoogleVoxels.maxScaling
                               {[GoogleVoxels.mkTileSpec 2 GoogleVoxels.XY := 0]})
        then Some (id (GoogleVoxels.mkLevelSpec
                         (map (Nat.iter (Z.to_nat s) (Z.mul 2))
                              (GoogleVoxels.copyFloats (replicate 3 0)
                                 (GoogleVoxels.PixelSize
                                    (GoogleVoxels.mkGeometry
                                       (GoogleVoxels.mkPoint3d 100 80 60) 1 "uint8"
                                       [8; 8; 8]))))
                         (GoogleVoxels.mkPoint3d 512 512 512)))
        else None.
Proof.
  apply (getTileSpec_levels 0 (Z.mul 2) id 4 512
           (GoogleVoxels.mkGeometry (GoogleVoxels.mkPoint3d 100 80 60) 1 "uint8" [8; 8; 8])
           {[GoogleVoxels.mkTileSpec 2 GoogleVoxels.XY := 0]}).
  - intros ts gi [<- _]%lookup_singleton_Some. simpl. lia.
  - vm_compute. lia.
Defined.

(** X14.  When some key of the tile map has scaling 255, [getTileSpec]
    does not return: [scale <= maxScale] holds for every uint8 [scale] and
    [scale++] wraps from 255 to 0, so no number of rounds ends the loop. *)
Theorem getTileSpec_never_returns_at_255 {float32 Level : Type} (zeroFloat : float32)
  (double : float32 -> float32)
  (Duplicate : GoogleVoxels.LevelSpec (float32 := float32) -> Level)
  (tileSize : Z) (hires : GoogleVoxels.Geometry) (tileMap : GoogleVoxels.GeometryMap)
  (ts255 : GoogleVoxels.TileSpec) (gi255 : Z) :
  (forall ts gi, tileMap !! ts = Some gi -> 0 <= GoogleVoxels.scaling ts < 256) ->
  tileMap !! ts255 = Some gi255 -> GoogleVoxels.scaling ts255 = 255 ->
  forall fuel,
    GoogleVoxels.getTileSpec zeroFloat double Duplicate fuel tileSize hires tileMap = None.
Proof.
  intros Hall H255 Hs fuel.
  assert (GoogleVoxels.maxScaling tileMap = 255) as Hmax.
  { pose proof (maxScaling_ge tileMap ts255 gi255 H255).
    assert (0 <= GoogleVoxels.maxScaling tileMap <= 255); [|lia].
    apply maxScaling_bounds; [lia|]. intros ts gi Hts. specialize (Hall ts gi Hts). lia. }
  unfold GoogleVoxels.getTileSpec. rewrite Hmax. by apply levelLoop_wraps.
Qed.

(** The statement of [getTileSpec_never_returns_at_255] on a tile map whose
    only key has scaling 255, for a thousand rounds. *)
Lemma getTileSpec_never_returns_at_255_witness :
  GoogleVoxels.getTileSpec 0 (Z.mul 2) id 1000 512
    (GoogleVoxels.mkGeometry (GoogleVoxels.mkPoint3d 100 80 60) 1 "uint8" [8; 8; 8])
    {[GoogleVoxels.mkTileSpec 255 GoogleVoxels.XY := 0]} = None.
Proof.
  refine (getTileSpec_never_returns_at_255 0 (Z.mul 2) id 512
            (GoogleVoxels.mkGeometry (GoogleVoxels.mkPoint3d 100 80 60) 1 "uint8" [8; 8; 8])
            {[GoogleVoxels.mkTileSpec 255 GoogleVoxels.XY := 0]}
            (GoogleVoxels.mkTileSpec 255 GoogleVoxels.XY) 0 _ _ _ 1000%nat).
  - intros ts gi [<- _]%lookup_singleton_Some. simpl. lia.
  - apply lookup_singleton_eq.
  - reflexivity.
Defined.

Section URLFacts.

Import GoogleVoxels.

Lemma splitColon_cons (s : string) : exists first others, splitColon s = first :: others.
Proof.
  induction s as [|c s (first & others & IH)]; simpl; [eauto|].
  destruct (Ascii.eqb c ":"); [eauto|]. rewrite IH. eauto.
Qed.

Lemma splitColon_prefixed (q : string) :
  splitColon ("jpg:" +:+ q) = "jpg" :: splitColon q /\
  splitColon ("jpeg:" +:+ q) = "jpeg" :: splitColon q.
Proof. split; reflexivity. Qed.

End URLFacts.

(** X15.  In the format string of [GetURL], "jpg" stands for "jpeg", alone
    or followed by a quality: the result (URL and error) is the same. *)
Theorem GetURL_jpg_is_jpeg (fmtInt : Z -> string) (Atoi : string -> error + Z)
  (gts : GoogleVoxels.GoogleTileSpec) (volumeid : string) :
  GoogleVoxels.GetURL fmtInt Atoi gts volumeid "jpg"
    = GoogleVoxels.GetURL fmtInt Atoi gts volumeid "jpeg" /\
  forall quality : string,
    GoogleVoxels.GetURL fmtInt Atoi gts volumeid ("jpg:" +:+ quality)
      = GoogleVoxels.GetURL fmtInt Atoi gts volumeid ("jpeg:" +:+ quality).
Proof.
  split; [reflexivity|]. intros quality.
  destruct (splitColon_prefixed quality) as [Hjpg Hjpeg].
  unfold GoogleVoxels.GetURL. rewrite Hjpg, Hjpeg.
  destruct (splitColon_cons quality) as (first & others & ->). cbn [nth length].
  repeat case_decide; try done; lia.
Qed.
